(** * config-reloader: the sidecar's startup gate, flag surface and actor wiring

    A shallow embedding of [cmd/config-reloader/main.go].  The program is a
    single [main]: it parses flags, waits for the target's ready endpoint,
    then runs three actors under a [run.Group].  Each part of [main] is a
    module below, in the order the code executes it. *)

From stdpp Require Import base numbers list strings.

Local Open Scope Z_scope.

(** Go's [error] values only matter here through being nil or not; a
    non-nil error carries its message. *)
Definition error := string.

(** ** [time.Duration]: an int64 count of nanoseconds *)
Module GoTime.

Definition Duration := Z.

Definition Nanosecond : Duration := 1.
Definition Microsecond : Duration := 1000 * Nanosecond.
Definition Millisecond : Duration := 1000 * Microsecond.
Definition Second : Duration := 1000 * Millisecond.
Definition Minute : Duration := 60 * Second.

End GoTime.

(** ** The command line: [flag.String], [flag.Var] and [stringSlice] *)
Module Flags.

(** [type stringSlice []string] *)
Definition stringSlice := list string.

(** [strings.Join] *)
Fixpoint Join (elems : list string) (sep : string) : string :=
  match elems with
  | [] => EmptyString
  | [e] => e
  | e :: rest => e +:+ sep +:+ Join rest sep
  end.

(** [func (ss *stringSlice) String() string] *)
Definition stringSlice_String (ss : stringSlice) : string := Join ss ", ".

(** [func (ss *stringSlice) Set(value string) error]: the receiver after
    the call, and the returned error (always nil). *)
Definition stringSlice_Set (ss : stringSlice) (value : string)
  : stringSlice * option error :=
  (ss ++ [value], None).

(** The [flag.Value] interface: what the flag package calls on each
    occurrence of a flag. *)
Class Value (V : Type) := {
  value_String : V → string;
  value_Set : V → string → V * option error;
}.

#[export] Instance stringSlice_Value : Value stringSlice :=
  {| value_String := stringSlice_String; value_Set := stringSlice_Set |}.

(** The value behind [flag.String]: [Set] stores the new string. *)
#[export] Instance string_Value : Value string :=
  {| value_String := λ s, s; value_Set := λ _ v, (v, None) |}.

(** The variables of [main]'s [var ( ... )] block. *)
Record flags := {
  watchedDirs : stringSlice;
  configFile : string;
  configFileOutput : string;
  reloadURLStr : string;
  readyURLStr : string;
  listenAddress : string;
}.

(** Their values before [flag.Parse]: the default of each [flag.String],
    and the zero value of [watchedDirs]. *)
Definition defaults : flags := {|
  watchedDirs := [];
  configFile := EmptyString;
  configFileOutput := EmptyString;
  reloadURLStr := "http://127.0.0.1:19090/-/reload";
  readyURLStr := "http://127.0.0.1:19090/-/ready";
  listenAddress := ":19091";
|}.

(** One occurrence [-name value] on the command line: the flag package
    looks the name up among the registered flags and calls [Set] on its
    value; a name that was not registered is an error. *)
Definition set_flag (f : flags) (name value : string) : flags + error :=
  let upd {V} `{Value V} (get : flags → V) (put : V → flags) :=
    match value_Set (get f) value with
    | (v, None) => inl (put v)
    | (_, Some e) => inr e
    end in
  if decide (name = "config-file") then
    upd configFile (λ v, {| watchedDirs := watchedDirs f; configFile := v;
      configFileOutput := configFileOutput f; reloadURLStr := reloadURLStr f;
      readyURLStr := readyURLStr f; listenAddress := listenAddress f |})
  else if decide (name = "config-file-output") then
    upd configFileOutput (λ v, {| watchedDirs := watchedDirs f; configFile := configFile f;
      configFileOutput := v; reloadURLStr := reloadURLStr f;
      readyURLStr := readyURLStr f; listenAddress := listenAddress f |})
  else if decide (name = "reload-url") then
    upd reloadURLStr (λ v, {| watchedDirs := watchedDirs f; configFile := configFile f;
      configFileOutput := configFileOutput f; reloadURLStr := v;
      readyURLStr := readyURLStr f; listenAddress := listenAddress f |})
  else if decide (name = "ready-url") then
    upd readyURLStr (λ v, {| watchedDirs := watchedDirs f; configFile := configFile f;
      configFileOutput := configFileOutput f; reloadURLStr := reloadURLStr f;
      readyURLStr := v; listenAddress := listenAddress f |})
  else if decide (name = "listen-address") then
    upd listenAddress (λ v, {| watchedDirs := watchedDirs f; configFile := configFile f;
      configFileOutput := configFileOutput f; reloadURLStr := reloadURLStr f;
      readyURLStr := readyURLStr f; listenAddress := v |})
  else if decide (name = "watched-dir") then
    upd watchedDirs (λ v, {| watchedDirs := v; configFile := configFile f;
      configFileOutput := configFileOutput f; reloadURLStr := reloadURLStr f;
      readyURLStr := readyURLStr f; listenAddress := listenAddress f |})
  else inr ("flag provided but not defined: -" +:+ name).

(** [flag.Parse] over the occurrences of the command line, left to
    right, stopping at the first error. *)
Fixpoint parse_from (f : flags) (args : list (string * string)) : flags + error :=
  match args with
  | [] => inl f
  | (name, value) :: rest =>
      match set_flag f name value with
      | inl f' => parse_from f' rest
      | inr e => inr e
      end
  end.

Definition Parse (args : list (string * string)) : flags + error :=
  parse_from defaults args.

(** The flag names [main] registers. *)
Definition registered : list string :=
  ["config-file"; "config-file-output"; "reload-url"; "ready-url";
   "listen-address"; "watched-dir"].

(** The values given to [-watched-dir], in command-line order. *)
Definition dirs_of (args : list (string * string)) : list string :=
  (filter (λ a, a.1 = "watched-dir") args).*2.

End Flags.

(** ** Log lines written through [level.Info] and [level.Error] *)
Inductive log_line :=
| LevelInfo (msg : string)
| LevelError (msg : string) (err : option error).

(** ** The readiness gate: the goroutine polling [ready-url] *)
Module Gate.

(** [*http.Response], of which the gate reads [StatusCode] and closes
    [Body]. *)
Record Response := { StatusCode : Z }.

(** [http.StatusOK] *)
Definition StatusOK : Z := 200.

(** What [http.DefaultClient.Do(req)] returns: a response pointer that may
    be nil and an error that may be nil. *)
Definition do_result : Type := option Response * option error.

(** What the goroutine's surroundings decide.  Times are nanoseconds since
    [time.NewTicker] was called; a request is taken to complete within the
    tick it was issued in. *)
Record env := {
  (** when a signal is delivered on [term], if one ever is *)
  term_at : option Z;
  (** what [Do] returns for a request to the given URL issued at the given
      time *)
  endpoint : string → Z → do_result;
  (** which case [select] takes when [term] and [ticker.C] are both ready
      at the given time: [true] for [term] *)
  select_term : Z → bool;
}.

(** [time.NewTicker(500 * time.Millisecond)] *)
Definition poll_interval : GoTime.Duration := 500 * GoTime.Millisecond.

(** The ticker delivers its [k]-th tick, [k >= 1], one interval after the
    previous one; the first comes one interval after its creation. *)
Definition tick_time (k : nat) : Z := Z.of_nat k * poll_interval.

(** How the goroutine's loop is left. *)
Inductive ending :=
| Done             (** [done <- true; return] *)
| Exit (code : Z)  (** [os.Exit(code)] *)
| Panic            (** a run-time panic: nil pointer dereference *)
| Polling.         (** not left: the loop is still running *)

Record state := {
  (** time of the last event the goroutine handled *)
  now : Z;
  (** the URL and the time of each call of [Do], oldest first *)
  requests : list (string * Z);
  (** status codes of the responses that did not end the loop *)
  not_ready : list Z;
  logs : list log_line;
  (** [defer resp.Body.Close()] calls waiting for the function to return *)
  deferred : nat;
  (** [ticker.Stop()] was called *)
  stopped : bool;
}.

Definition log (l : log_line) (s : state) : state :=
  {| now := now s; requests := requests s; not_ready := not_ready s;
     logs := logs s ++ [l]; deferred := deferred s; stopped := stopped s |}.

Definition at_time (t : Z) (s : state) : state :=
  {| now := t; requests := requests s; not_ready := not_ready s;
     logs := logs s; deferred := deferred s; stopped := stopped s |}.

Definition request (url : string) (t : Z) (s : state) : state :=
  {| now := t; requests := requests s ++ [(url, t)]; not_ready := not_ready s;
     logs := logs s; deferred := deferred s; stopped := stopped s |}.

Definition defer_close (s : state) : state :=
  {| now := now s; requests := requests s; not_ready := not_ready s;
     logs := logs s; deferred := S (deferred s); stopped := stopped s |}.

Definition retry (code : Z) (s : state) : state :=
  {| now := now s; requests := requests s; not_ready := not_ready s ++ [code];
     logs := logs s; deferred := deferred s; stopped := stopped s |}.

Definition ticker_Stop (s : state) : state :=
  {| now := now s; requests := requests s; not_ready := not_ready s;
     logs := logs s; deferred := deferred s; stopped := true |}.

(** The deferred calls run when the goroutine's function returns. *)
Definition run_deferred (s : state) : state :=
  {| now := now s; requests := requests s; not_ready := not_ready s;
     logs := logs s; deferred := O; stopped := stopped s |}.

(** Whether the [select] that is waiting for the tick due at [t] takes
    [case <-term] instead: a signal came earlier, or it came at [t] and
    [select] chose it. *)
Definition term_first (e : env) (t : Z) : bool :=
  match term_at e with
  | Some ts => bool_decide (ts < t) || (bool_decide (ts = t) && select_term e t)
  | None => false
  end.

(** [for { select { ... } }], having received [k] ticks so far; [url] is
    the URL of [req], and [fuel] bounds the number of iterations run. *)
Fixpoint loop (e : env) (url : string) (fuel : nat) (k : nat) (s : state)
  : ending * state :=
  match fuel with
  | O => (Polling, s)
  | S fuel' =>
      let t := tick_time (S k) in
      if term_first e t then
        (* case <-term: *)
        let s := at_time (Z.max (now s) (default 0 (term_at e))) s in
        let s := log (LevelInfo "received SIGTERM, exiting gracefully...") s in
        (Exit 0, s)
      else
        (* case <-ticker.C: *)
        (* resp, err := http.DefaultClient.Do(req) *)
        let '(resp, err) := endpoint e url t in
        let s := request url t s in
        (* defer resp.Body.Close() evaluates resp.Body now *)
        match resp with
        | None => (Panic, s)
        | Some r =>
            let s := defer_close s in
            match err with
            | Some _ =>
                let s := log (LevelError "polling ready-url" err) s in
                (Exit 1, s)
            | None =>
                if bool_decide (StatusCode r = StatusOK) then
                  let s := log (LevelInfo "ready-url is healthy") s in
                  let s := ticker_Stop s in
                  (* done <- true; return *)
                  (Done, run_deferred s)
                else loop e url fuel' (S k) (retry (StatusCode r) s)
            end
        end
  end.

Definition init : state :=
  {| now := 0; requests := []; not_ready := []; logs := [];
     deferred := O; stopped := false |}.

(** The body of the goroutine, run for at most [fuel] iterations, with
    [req] the GET request for [url]. *)
Definition gate (e : env) (url : string) (fuel : nat) : ending * state :=
  loop e url fuel O (log (LevelInfo "ensure ready-url is healthy") init).

(** The outcomes of the contract [waitReady -> Ready | Cancelled | Failed]:
    the gate is [Ready] when it sends on [done], [Cancelled] when it exits
    with code 0 and [Failed] when it exits with another code.  A panic and
    a loop that is still running are none of the three. *)
Inductive outcome := Ready | Cancelled | Failed.

Definition outcome_of (x : ending) : option outcome :=
  match x with
  | Done => Some Ready
  | Exit c => if bool_decide (c = 0) then Some Cancelled else Some Failed
  | Panic => None
  | Polling => None
  end.

(** An endpoint that is up and answers with the given status code. *)
Definition answers (code : Z) : do_result := (Some {| StatusCode := code |}, None).

(** An endpoint that cannot be reached: [Do] returns a nil response and
    the transport's error. *)
Definition transport_error (msg : error) : do_result := (None, Some msg).

(** The status code of a response, 0 when there is none. *)
Definition code_of (r : do_result) : Z :=
  match r.1 with
  | Some resp => StatusCode resp
  | None => 0
  end.

(** [Do] succeeded with a status other than 200: not ready yet. *)
Definition not_ready_response (r : do_result) : bool :=
  match r with
  | (Some resp, None) => negb (bool_decide (StatusCode resp = StatusOK))
  | _ => false
  end.

(** [Do] succeeded with status 200. *)
Definition ready_response (r : do_result) : bool :=
  match r with
  | (Some resp, None) => bool_decide (StatusCode resp = StatusOK)
  | _ => false
  end.

(** The first [n] polls find the endpoint not ready, and no signal is
    taken before them. *)
Definition polls_not_ready (e : env) (url : string) (k n : nat) : Prop :=
  ∀ j, (k < j ≤ k + n)%nat →
    term_first e (tick_time j) = false ∧
    not_ready_response (endpoint e url (tick_time j)) = true.

(** The times of the ticks after the [k]-th up to the [k + n]-th. *)
Definition ticks (k n : nat) : list Z := tick_time <$> seq (S k) n.

(** The requests made on those ticks. *)
Definition polls (url : string) (k n : nat) : list (string * Z) :=
  (λ t, (url, t)) <$> ticks k n.

#[global] Arguments tick_time : simpl never.
#[global] Arguments ticks : simpl never.
#[global] Arguments polls : simpl never.

End Gate.

(** ** The actor supervisor *)
Module Group.

(** An actor's blocking run operation: the outcome it returns, nil for
    success, given whether its interrupt operation was invoked before it
    returned. *)
Record actor := { run : bool → option error }.

Inductive status :=
| Idle                           (** registered, not started *)
| Running
| Returned (o : option error).

(** Where the supervisor's own run call stands. *)
Inductive phase :=
| Starting (k : nat)             (** the actors below [k] are started *)
| Waiting                        (** for the first actor to return *)
| Interrupting (first k : nat)   (** the actors below [k] other than
                                     [first] are interrupted *)
| Joining (first : nat)          (** waiting for the remaining actors *)
| Finished (result : option error).

Inductive event :=
| Start (i : nat)
| Return (i : nat) (o : option error)
| Interrupt (i : nat)
| Finish (result : option error).

Record state := {
  statuses : list status;
  (** how many times each actor's interrupt operation was invoked *)
  interrupts : list nat;
  (** the actors that returned with their outcomes, in that order *)
  returned : list (nat * option error);
  phase_of : phase;
  trace : list event;
}.

(** The scheduler's choice of who moves next: the supervisor, or the
    [i]-th actor, whose run call returns. *)
Inductive choice := Sup | Act (i : nat).

(** Modelled from the spec: the final result of the supervisor, whose
    code is not among the sources: the outcome of the first actor that
    returned with a failure, or success if all returned without failure. *)
Fixpoint first_failure (rs : list (nat * option error)) : option error :=
  match rs with
  | [] => None
  | (_, Some e) :: _ => Some e
  | (_, None) :: rs => first_failure rs
  end.

Definition is_returned (st : status) : bool :=
  match st with Returned _ => true | _ => false end.

Definition init (actors : list actor) : state :=
  {| statuses := replicate (length actors) Idle;
     interrupts := replicate (length actors) O;
     returned := []; phase_of := Starting O; trace := [] |}.

(** Modelled from the spec: the supervisor's run operation, which
    [main] calls as [g.Run()] on a [run.Group] whose code is not among the
    sources.  It starts every registered actor; on the first actor to
    return it invokes interrupt on every other actor, then waits for all
    remaining actors to return; its result is the outcome of the first
    actor that returned with a failure, or success.  One step of the
    supervisor: *)
Definition sup_step (actors : list actor) (s : state) : state :=
  let n := length actors in
  match phase_of s with
  | Starting k =>
      if decide (k < n)%nat then
        {| statuses := <[k:=Running]> (statuses s); interrupts := interrupts s;
           returned := returned s; phase_of := Starting (S k);
           trace := trace s ++ [Start k] |}
      else
        {| statuses := statuses s; interrupts := interrupts s;
           returned := returned s; phase_of := Waiting; trace := trace s |}
  | Waiting =>
      match returned s with
      | [] => s
      | (i, _) :: _ =>
          {| statuses := statuses s; interrupts := interrupts s;
             returned := returned s; phase_of := Interrupting i O;
             trace := trace s |}
      end
  | Interrupting i k =>
      if decide (k < n)%nat then
        if decide (k = i) then
          {| statuses := statuses s; interrupts := interrupts s;
             returned := returned s; phase_of := Interrupting i (S k);
             trace := trace s |}
        else
          {| statuses := statuses s;
             interrupts := <[k:=S (default O (interrupts s !! k))]> (interrupts s);
             returned := returned s; phase_of := Interrupting i (S k);
             trace := trace s ++ [Interrupt k] |}
      else
        {| statuses := statuses s; interrupts := interrupts s;
           returned := returned s; phase_of := Joining i; trace := trace s |}
  | Joining i =>
      if forallb is_returned (statuses s) then
        let r := first_failure (returned s) in
        {| statuses := statuses s; interrupts := interrupts s;
           returned := returned s; phase_of := Finished r;
           trace := trace s ++ [Finish r] |}
      else s
  | Finished _ => s
  end.

(** Modelled from the spec: an actor's run operation returns an outcome
    when its work naturally ends or is interrupted.  One step of the
    [i]-th actor: its run call returns, if it is running. *)
Definition act_step (actors : list actor) (i : nat) (s : state) : state :=
  match statuses s !! i, actors !! i with
  | Some Running, Some a =>
      let o := run a (bool_decide (0 < default O (interrupts s !! i))%nat) in
      {| statuses := <[i:=Returned o]> (statuses s); interrupts := interrupts s;
         returned := returned s ++ [(i, o)]; phase_of := phase_of s;
         trace := trace s ++ [Return i o] |}
  | _, _ => s
  end.

Definition step (actors : list actor) (c : choice) (s : state) : state :=
  match c with
  | Sup => sup_step actors s
  | Act i => act_step actors i s
  end.

(** The supervisor and its actors under a schedule. *)
Definition exec (actors : list actor) (sched : list choice) (s : state) : state :=
  foldl (λ s c, step actors c s) s sched.

(** The supervisor's run call from registration, [Run actors sched]: the
    state the schedule leads to, and the result if the call returned. *)
Definition Run (actors : list actor) (sched : list choice) : state :=
  exec actors sched (init actors).

Definition result (s : state) : option (option error) :=
  match phase_of s with Finished r => Some r | _ => None end.

(** A schedule under which every actor waits to be interrupted, except
    the [i]-th, which returns by itself. *)
Definition first_then_rest (n i : nat) : list choice :=
  replicate (S n) Sup ++ [Act i] ++ replicate (n + 2) Sup
    ++ (Act <$> seq 0 n) ++ [Sup].

(** The actors below [k] other than [i] were interrupted once, the others
    not at all. *)
Definition interrupted_below (actors : list actor) (i k : nat) (s : state) : Prop :=
  ∀ j, (j < length actors)%nat →
    interrupts s !! j = Some (if decide (j < k ∧ j ≠ i)%nat then 1%nat else O).

(** The actor that returned first. *)
Definition first_returned (s : state) : option nat := fst <$> head (returned s).

(** What holds in each phase of the supervisor. *)
Definition phase_inv (actors : list actor) (s : state) : Prop :=
  match phase_of s with
  | Starting k => interrupted_below actors O O s
  | Waiting => interrupted_below actors O O s
  | Interrupting i k =>
      first_returned s = Some i ∧ interrupted_below actors i k s
  | Joining i =>
      first_returned s = Some i ∧ interrupted_below actors i (length actors) s
  | Finished r =>
      (∃ i, first_returned s = Some i ∧
            interrupted_below actors i (length actors) s) ∧
      forallb is_returned (statuses s) = true ∧
      r = first_failure (returned s)
  end.

(** In the trace, an interrupt comes only after some actor returned. *)
Definition interrupts_follow_return (tr : list event) : Prop :=
  ∀ pre j post, tr = pre ++ Interrupt j :: post → ∃ i o, Return i o ∈ pre.

(** What holds of every state of a run. *)
Record inv (actors : list actor) (s : state) : Prop := {
  inv_statuses : length (statuses s) = length actors;
  inv_interrupts : length (interrupts s) = length actors;
  inv_phase : phase_inv actors s;
  inv_returned : ∀ i o, (i, o) ∈ returned s → Return i o ∈ trace s;
  inv_trace : interrupts_follow_return (trace s);
}.

(** A continuation of a schedule in which every actor returns and the
    supervisor is given its turns. *)
Definition drain (n : nat) : list choice :=
  replicate (S n) Sup ++ (Act <$> seq 0 n) ++ replicate (n + 3) Sup.

(** The actors below [k] were started. *)
Definition started_below (actors : list actor) (k : nat) (s : state) : Prop :=
  ∀ j, (j < k)%nat → (j < length actors)%nat → statuses s !! j ≠ Some Idle.

Definition returned_at (s : state) (j : nat) : Prop :=
  ∃ o, statuses s !! j = Some (Returned o).

(** What a run keeps true on the way to the supervisor's return. *)
Record live (actors : list actor) (s : state) : Prop := {
  live_started :
    started_below actors
      (match phase_of s with Starting k => k | _ => length actors end) s;
  live_returned :
    ∀ i o, statuses s !! i = Some (Returned o) → (i, o) ∈ returned s;
}.

(** How many steps of its own the supervisor is from returning, once all
    actors have. *)
Definition rank (actors : list actor) (p : phase) : nat :=
  match p with
  | Starting k => (length actors - k) + length actors + 4
  | Waiting => length actors + 3
  | Interrupting _ k => (length actors - k) + 2
  | Joining _ => 1
  | Finished _ => 0
  end.

Definition is_starting (p : phase) : bool :=
  match p with Starting _ => true | _ => false end.

End Group.

(** ** The three actors [main] registers *)
Module Actors.

(** What wakes the signal listener's [select]: a signal on [term], or its
    [cancel] channel being closed by its interrupt function. *)
Inductive wake := Term | Cancel.

(** The signal listener's execute function: the lines it logs and the
    error it returns. *)
Definition signal_execute (w : wake) : list log_line * option error :=
  match w with
  | Term => ([LevelInfo "received SIGTERM, exiting gracefully..."], None)
  | Cancel => ([], None)
  end.

(** What the metrics server's interrupt function observes of
    [server.Shutdown]. *)
Record shutdown := {
  (** from when on no new connection is accepted *)
  closed_at : Z;
  (** when [Shutdown] returned *)
  returned_at : Z;
  shutdown_err : option error;
}.

(** [context.WithTimeout(context.Background(), d)], called at [now]: the
    context's deadline. *)
Definition WithTimeout (now : Z) (d : GoTime.Duration) : Z := now + d.

(** Modelled from the spec: [http.Server.Shutdown], library code that is
    not among the sources.  Called at [now] with a context that ends at
    [deadline], it stops accepting new connections and waits for the
    in-flight requests to finish, which they do at [idle_at] if ever; when
    the context ends first the wait is given up with the context's error. *)
Definition Shutdown (now deadline : Z) (idle_at : option Z) : shutdown :=
  match idle_at with
  | Some t =>
      if bool_decide (t ≤ deadline) then
        {| closed_at := now; returned_at := Z.max now t; shutdown_err := None |}
      else
        {| closed_at := now; returned_at := Z.max now deadline;
           shutdown_err := Some "context deadline exceeded" |}
  | None =>
      {| closed_at := now; returned_at := Z.max now deadline;
         shutdown_err := Some "context deadline exceeded" |}
  end.

(** The metrics server's interrupt function, called at [now]. *)
Definition metrics_interrupt (now : Z) (idle_at : option Z)
  : list log_line * shutdown :=
  let ctx := WithTimeout now GoTime.Minute in
  let r := Shutdown now ctx idle_at in
  match shutdown_err r with
  | Some _ => ([LevelError "Server failed to shut down gracefully." None], r)
  | None => ([], r)
  end.

(** The grace period the interrupt function grants. *)
Definition grace_period : GoTime.Duration := WithTimeout 0 GoTime.Minute.

End Actors.

(** ** [func main()] *)
Module Main.

(** What [main] depends on outside this file. *)
Record world := {
  args : list (string * string);
  (** the error of [url.Parse] *)
  url_Parse : string → option error;
  (** the error of [http.NewRequest(http.MethodGet, url, nil)] *)
  http_NewRequest : string → option error;
  ready : Gate.env;
  (** [rel.Watch(ctx)], given whether [ctx] was cancelled *)
  Watch : bool → option error;
  (** [server.ListenAndServe()], given whether [Shutdown] was called *)
  ListenAndServe : bool → option error;
  (** who moves next, step by step, while [g.Run] runs *)
  sched : list Group.choice;
}.

(** [reloader.Options] as [main] fills it in. *)
Record Options := {
  ReloadURL : string;
  CfgFile : string;
  CfgOutputFile : string;
  WatchedDirs : list string;
  WatchInterval : GoTime.Duration;
  RetryInterval : GoTime.Duration;
  DelayInterval : GoTime.Duration;
}.

Inductive event :=
| Log (l : log_line)
| NewRegistry                      (** [prometheus.NewRegistry] and
                                       [MustRegister] *)
| Notify                           (** [signal.Notify] *)
| NewTicker (d : GoTime.Duration)
| GateDone                         (** [<-done] received *)
| ReloaderNew (o : Options)        (** [reloader.New] *)
| Add (i : nat)                    (** [g.Add] of the [i]-th actor *)
| NewServer (addr : string)        (** [&http.Server{Addr: addr}] *)
| Handle (pattern : string)        (** [http.Handle] *)
| Actor (e : Group.event).         (** a step of [g.Run] *)

(** How the process stops other than by [main] returning. *)
Inductive halt :=
| Exited (code : Z)                (** [os.Exit] *)
| Panicked
| Blocked.                         (** it does not stop *)

(** A program: the events so far, and a value or the reason it stopped. *)
Definition prog (A : Type) : Type := list event * (A + halt).

#[export] Instance prog_ret : MRet prog := λ A x, ([], inl x).

#[export] Instance prog_bind : MBind prog := λ A B f m,
  match m with
  | (tr, inl x) => let '(tr', r) := f x in (tr ++ tr', r)
  | (tr, inr h) => (tr, inr h)
  end.

Definition emit (e : event) : prog unit := ([e], inl tt).

Definition stop {A} (h : halt) : prog A := ([], inr h).

Definition os_Exit {A} (code : Z) : prog A := stop (Exited code).

(** [flag.Parse()]: the command line's flag set exits with code 2 on a
    parse error. *)
Definition flag_Parse (w : world) : prog Flags.flags :=
  match Flags.Parse (args w) with
  | inl f => mret f
  | inr _ => os_Exit 2
  end.

(** [go func() { ... }(); <-done]: [main] receives from [done] when the
    goroutine has sent; the goroutine's exit or panic ends the process. *)
Definition wait_ready (fuel : nat) (w : world) (url : string) : prog unit :=
  let '(x, s) := Gate.gate (ready w) url fuel in
  let tr := Log <$> Gate.logs s in
  match x with
  | Gate.Done => (tr ++ [GateDone], inl tt)
  | Gate.Exit c => (tr, inr (Exited c))
  | Gate.Panic => (tr, inr Panicked)
  | Gate.Polling => (tr, inr Blocked)
  end.

(** The actors in the order of [g.Add]: the reloader, the signal listener
    and the metrics server. *)
Definition actors (w : world) : list Group.actor :=
  [ {| Group.run := Watch w |};
    {| Group.run := λ interrupted,
         (Actors.signal_execute (if interrupted then Actors.Cancel else Actors.Term)).2 |};
    {| Group.run := ListenAndServe w |} ].

(** [g.Run()] *)
Definition g_Run (w : world) : prog (option error) :=
  let s := Group.Run (actors w) (sched w) in
  let tr := Actor <$> Group.trace s in
  match Group.result s with
  | Some r => (tr, inl r)
  | None => (tr, inr Blocked)
  end.

Definition main (fuel : nat) (w : world) : prog unit :=
  f ← flag_Parse w;
  emit NewRegistry;;
  match url_Parse w (Flags.reloadURLStr f) with
  | Some err =>
      emit (Log (LevelError "parsing reloader URL failed" (Some err)));;
      os_Exit 1
  | None => mret tt
  end;;
  emit Notify;;
  match http_NewRequest w (Flags.readyURLStr f) with
  | Some err =>
      emit (Log (LevelError "creating request" (Some err)));;
      os_Exit 1
  | None => mret tt
  end;;
  emit (NewTicker Gate.poll_interval);;
  wait_ready fuel w (Flags.readyURLStr f);;
  emit (ReloaderNew {|
    ReloadURL := Flags.reloadURLStr f;
    CfgFile := Flags.configFile f;
    CfgOutputFile := Flags.configFileOutput f;
    WatchedDirs := Flags.watchedDirs f;
    WatchInterval := 10 * GoTime.Second;
    RetryInterval := 5 * GoTime.Second;
    DelayInterval := 3 * GoTime.Second;
  |});;
  emit (Add 0);;
  emit (Add 1);;
  emit (NewServer (Flags.listenAddress f));;
  emit (Handle "/metrics");;
  emit (Add 2);;
  err ← g_Run w;
  match err with
  | Some e =>
      emit (Log (LevelError "running reloader failed" (Some e)));;
      os_Exit 1
  | None => mret tt
  end.

(** The process's exit code: 0 when [main] returns, the argument of
    [os.Exit], 2 after a panic; none while the process runs. *)
Definition exit_code (p : prog unit) : option Z :=
  match p.2 with
  | inl _ => Some 0
  | inr (Exited c) => Some c
  | inr Panicked => Some 2
  | inr Blocked => None
  end.

(** The events by which an actor is constructed, registered or run. *)
Definition of_actor (e : event) : bool :=
  match e with
  | ReloaderNew _ | Add _ | NewServer _ | Actor _ => true
  | _ => false
  end.

(** In a trace, every event of an actor has the gate's [done] before it. *)
Definition gated (tr : list event) : Prop :=
  ∀ i ev, tr !! i = Some ev → of_actor ev = true →
    ∃ j, (j < i)%nat ∧ tr !! j = Some GateDone.

End Main.

(** ** The readiness scenario of the specification *)
Module Scenario.

(** An endpoint that answers 503 to every request before t = 1.5 s and 200
    from then on; no signal arrives. *)
Definition ready_at_1500ms : Gate.env :=
  {| Gate.term_at := None;
     Gate.endpoint := λ _ t,
       if bool_decide (t < 1500 * GoTime.Millisecond)
       then Gate.answers 503 else Gate.answers 200;
     Gate.select_term := λ _, false |}.

(** An endpoint that answers 503 to the first three polls and 200 to the
    fourth; no signal arrives. *)
Definition ready_on_4th_poll : Gate.env :=
  {| Gate.term_at := None;
     Gate.endpoint := λ _ t,
       if bool_decide (t ≤ Gate.tick_time 3)
       then Gate.answers 503 else Gate.answers 200;
     Gate.select_term := λ _, false |}.

(** An endpoint that refuses connections; no signal arrives. *)
Definition connection_refused : Gate.env :=
  {| Gate.term_at := None;
     Gate.endpoint := λ _ _, Gate.transport_error "connect: connection refused";
     Gate.select_term := λ _, false |}.

(** An endpoint that is not ready, and a signal 0.7 s after the start. *)
Definition term_at_700ms : Gate.env :=
  {| Gate.term_at := Some (700 * GoTime.Millisecond);
     Gate.endpoint := λ _ _, Gate.answers 503;
     Gate.select_term := λ _, false |}.


(** The web server returns first; the others return once interrupted. *)
Definition server_first : list Group.choice := Group.first_then_rest 3 2.

(** A run of the process in which the target is ready on the third poll
    and the web server then fails to bind its address. *)
Definition world_ready : Main.world :=
  {| Main.args := [("config-file", "/prometheus/config.yaml");
                   ("watched-dir", "/etc/rules")];
     Main.url_Parse := λ _, None;
     Main.http_NewRequest := λ _, None;
     Main.ready := ready_at_1500ms;
     Main.Watch := λ _, None;
     Main.ListenAndServe := λ _, Some "listen tcp :19091: bind: address already in use";
     Main.sched := server_first |}.

(** The same with a reload URL that does not parse. *)
Definition world_bad_reload_url : Main.world :=
  {| Main.args := [("reload-url", "http://[::1")];
     Main.url_Parse := λ _, Some "missing ']' in host";
     Main.http_NewRequest := λ _, None;
     Main.ready := ready_at_1500ms;
     Main.Watch := λ _, None;
     Main.ListenAndServe := λ _, Some "listen tcp :19091: bind: address already in use";
     Main.sched := server_first |}.

(** The same with a ready URL from which no request can be made. *)
Definition world_bad_ready_url : Main.world :=
  {| Main.args := [("ready-url", "http://[::1")];
     Main.url_Parse := λ _, None;
     Main.http_NewRequest := λ _, Some "missing ']' in host";
     Main.ready := ready_at_1500ms;
     Main.Watch := λ _, None;
     Main.ListenAndServe := λ _, Some "listen tcp :19091: bind: address already in use";
     Main.sched := server_first |}.

(** A run in which every actor returns without error. *)
Definition world_clean : Main.world :=
  {| Main.args := [];
     Main.url_Parse := λ _, None;
     Main.http_NewRequest := λ _, None;
     Main.ready := ready_at_1500ms;
     Main.Watch := λ _, None;
     Main.ListenAndServe := λ _, None;
     Main.sched := server_first |}.

(** A run in which the signal comes while the target is not ready. *)
Definition world_term : Main.world :=
  {| Main.args := [];
     Main.url_Parse := λ _, None;
     Main.http_NewRequest := λ _, None;
     Main.ready := term_at_700ms;
     Main.Watch := λ _, None;
     Main.ListenAndServe := λ _, None;
     Main.sched := [] |}.

End Scenario.

(** ** The scrape-endpoint failure check of the end-to-end tests *)
Module E2E.

(** [strings.HasPrefix] *)
Fixpoint HasPrefix (s prefix : string) : bool :=
  match prefix, s with
  | EmptyString, _ => true
  | String a prefix', String b s' => bool_decide (a = b) && HasPrefix s' prefix'
  | String _ _, EmptyString => false
  end.

(** [strings.Contains]: [substr] occurs at some position of [s]. *)
Fixpoint Contains (s substr : string) : bool :=
  HasPrefix s substr ||
  match s with
  | EmptyString => false
  | String _ s' => Contains s' substr
  end.

(** The fields of [monitoringv1.SampleTarget], [monitoringv1.SampleGroup]
    and [monitoringv1.ScrapeEndpointStatus] that the check reads; their
    declarations are in the operator's API package.  [LastError] is a
    [*string]. *)
Record SampleTarget := {
  Health : string;
  LastError : option string;
}.

Record SampleGroup := {
  SampleTargets : list SampleTarget;
}.

Record ScrapeEndpointStatus := {
  UnhealthyTargets : Z;
  CollectorsFraction : string;
  SampleGroups : list SampleGroup;
}.

(** The errors the check returns, each with the arguments of its format:
    - [NoUnhealthyTargets]: "expected no healthy targets"
    - [CollectorsFractionZero found]:
      "expected collectors fraction to be 0 but found: %s"
    - [MissingSampleGroups]: "missing sample groups"
    - [MissingSampleTargets i]: "missing sample targets for group %d"
    - [HealthyTarget health i]: "healthy target %q at group %d"
    - [MissingError i]: "missing error for target at group %d"
    - [UnexpectedError errMsg i got]:
      "expected error message %q at group %d: got %s" *)
Inductive failure :=
| NoUnhealthyTargets
| CollectorsFractionZero (found : string)
| MissingSampleGroups
| MissingSampleTargets (i : nat)
| HealthyTarget (health : string) (i : nat)
| MissingError (i : nat)
| UnexpectedError (errMsg : string) (i : nat) (got : string).

(** [for _, target := range group.SampleTargets { ... }] in group [i] *)
Fixpoint targets_loop (errMsg : string) (i : nat) (targets : list SampleTarget)
  : option failure :=
  match targets with
  | [] => None
  | target :: rest =>
      if bool_decide (Health target = "up") then
        Some (HealthyTarget (Health target) i)
      else
        match LastError target with
        | None => Some (MissingError i)
        | Some e =>
            if negb (Contains e errMsg) then Some (UnexpectedError errMsg i e)
            else targets_loop errMsg i rest
        end
  end.

(** [for i, group := range status.SampleGroups { ... }] from index [i] on *)
Fixpoint groups_loop (errMsg : string) (i : nat) (groups : list SampleGroup)
  : option failure :=
  match groups with
  | [] => None
  | group :: rest =>
      if bool_decide (length (SampleTargets group) = O) then
        Some (MissingSampleTargets i)
      else
        match targets_loop errMsg i (SampleTargets group) with
        | Some f => Some f
        | None => groups_loop errMsg (S i) rest
        end
  end.

(** What a call does: it returns an error, nil for none, or panics on a
    nil [status]. *)
Inductive outcome :=
| Returns (err : option failure)
| NilDereference.

(** [func isPodMonitoringScrapeEndpointFailure(status, errMsg) error] *)
Definition isPodMonitoringScrapeEndpointFailure
    (status : option ScrapeEndpointStatus) (errMsg : string) : outcome :=
  match status with
  | None => NilDereference
  | Some status =>
      if bool_decide (UnhealthyTargets status = 0) then
        Returns (Some NoUnhealthyTargets)
      else if bool_decide (CollectorsFraction status = "0") then
        Returns (Some (CollectorsFractionZero (CollectorsFraction status)))
      else if bool_decide (length (SampleGroups status) = O) then
        Returns (Some MissingSampleGroups)
      else Returns (groups_loop errMsg O (SampleGroups status))
  end.

(** The closure [testEnsurePodMonitoringFailure] and
    [testEnsureClusterPodMonitoringFailure] hand to the status test. *)
Definition failure_check (errMsg : string) (status : option ScrapeEndpointStatus)
  : outcome :=
  isPodMonitoringScrapeEndpointFailure status errMsg.

(** [sub] occurs in [s]. *)
Definition occurs_in (sub s : string) : Prop :=
  ∃ pre post, s = pre +:+ sub +:+ post.

(** A target that failed with the expected message. *)
Definition target_failed (errMsg : string) (t : SampleTarget) : Prop :=
  Health t ≠ "up" ∧ ∃ e, LastError t = Some e ∧ occurs_in errMsg e.

(** A group with sample targets, all of which failed that way. *)
Definition group_failed (errMsg : string) (g : SampleGroup) : Prop :=
  SampleTargets g ≠ [] ∧ Forall (target_failed errMsg) (SampleTargets g).

(** The statuses the check lets through. *)
Definition endpoint_failed (errMsg : string) (st : ScrapeEndpointStatus) : Prop :=
  UnhealthyTargets st ≠ 0 ∧
  CollectorsFraction st ≠ "0" ∧
  SampleGroups st ≠ [] ∧
  Forall (group_failed errMsg) (SampleGroups st).

(** The group an error names. *)
Definition group_of (f : failure) : option nat :=
  match f with
  | MissingSampleTargets i | HealthyTarget _ i | MissingError i
  | UnexpectedError _ i _ => Some i
  | _ => None
  end.

(** A status with other sample groups. *)
Definition with_groups (st : ScrapeEndpointStatus) (groups : list SampleGroup)
  : ScrapeEndpointStatus :=
  {| UnhealthyTargets := UnhealthyTargets st;
     CollectorsFraction := CollectorsFraction st;
     SampleGroups := groups |}.

End E2E.

(** ** Inputs for the properties beyond the specification's scenarios *)
Module Samples.

(** A status as the TLS failure test expects it: one group with one
    target that is down with a certificate error. *)
Definition tls_failure : E2E.ScrapeEndpointStatus :=
  {| E2E.UnhealthyTargets := 1;
     E2E.CollectorsFraction := "1";
     E2E.SampleGroups :=
       [ {| E2E.SampleTargets :=
              [ {| E2E.Health := "down";
                   E2E.LastError :=
                     Some "Get https://10.0.0.7:8080/metrics: x509: certificate signed by unknown authority" |} ] |} ] |}.

(** The same with a second group whose target is up. *)
Definition one_target_up : E2E.ScrapeEndpointStatus :=
  E2E.with_groups tls_failure
    (E2E.SampleGroups tls_failure ++
     [ {| E2E.SampleTargets := [ {| E2E.Health := "up"; E2E.LastError := None |} ] |} ]).

(** An endpoint that is not ready on the first poll and on the second
    answers 200 to a request that the client nevertheless fails, as when a
    redirect policy stops it. *)
Definition redirect_error : Gate.env :=
  {| Gate.term_at := None;
     Gate.endpoint := λ _ t,
       if bool_decide (t ≤ Gate.tick_time 1) then Gate.answers 503
       else (Some {| Gate.StatusCode := 200 |}, Some "stopped after 10 redirects");
     Gate.select_term := λ _, false |}.

(** An endpoint that is never ready, and no signal. *)
Definition never_ready : Gate.env :=
  {| Gate.term_at := None;
     Gate.endpoint := λ _ _, Gate.answers 503;
     Gate.select_term := λ _, false |}.

(** A run of the process against an endpoint that refuses connections. *)
Definition world_refused : Main.world :=
  {| Main.args := [];
     Main.url_Parse := λ _, None;
     Main.http_NewRequest := λ _, None;
     Main.ready := Scenario.connection_refused;
     Main.Watch := λ _, None;
     Main.ListenAndServe := λ _, None;
     Main.sched := [] |}.

(** A run of the process against an endpoint that is never ready. *)
Definition world_never_ready : Main.world :=
  {| Main.args := [];
     Main.url_Parse := λ _, None;
     Main.http_NewRequest := λ _, None;
     Main.ready := never_ready;
     Main.Watch := λ _, None;
     Main.ListenAndServe := λ _, None;
     Main.sched := [] |}.

End Samples.

(** * Properties *)

(** ** The command line *)
Section FlagFacts.

Import Flags.

Lemma stringSlice_Set_appends (ss : stringSlice) (v : string) :
  stringSlice_Set ss v = (ss ++ [v], None).
Proof. reflexivity. Qed.

(** Each occurrence of a registered flag is accepted; it extends
    [watchedDirs] when it is [-watched-dir] and leaves it alone otherwise. *)
Lemma set_flag_registered (f : flags) (name value : string) :
  name ∈ registered →
  ∃ f', set_flag f name value = inl f' ∧
        watchedDirs f' =
          watchedDirs f ++ (if decide (name = "watched-dir") then [value] else []).
Proof.
  intros Hin. unfold registered in Hin.
  repeat (apply elem_of_cons in Hin as [-> | Hin]);
    [..| by apply elem_of_nil in Hin];
    (eexists; split; [reflexivity |]); cbn; by rewrite ?app_nil_r.
Qed.

(** A flag keeps its value over the occurrences of the other flags. *)
Lemma set_flag_other (f f' : flags) (name value : string) :
  set_flag f name value = inl f' →
  (name ≠ "reload-url" → reloadURLStr f' = reloadURLStr f) ∧
  (name ≠ "ready-url" → readyURLStr f' = readyURLStr f) ∧
  (name ≠ "listen-address" → listenAddress f' = listenAddress f).
Proof.
  unfold set_flag. repeat case_decide; cbn; intros [= <-]; cbn; by intuition.
Qed.

Lemma parse_from_dirs (args : list (string * string)) (f : flags) :
  Forall (λ a, a.1 ∈ registered) args →
  ∃ f', parse_from f args = inl f' ∧
        watchedDirs f' = watchedDirs f ++ dirs_of args.
Proof.
  revert f. induction args as [| [name value] args IH]; intros f Hall.
  { exists f. by rewrite app_nil_r. }
  apply Forall_cons in Hall as [Hname Hall]. cbn in Hname.
  destruct (set_flag_registered f name value Hname) as (f1 & Hset & Hdirs).
  destruct (IH f1 Hall) as (f' & Hparse & Hdirs').
  exists f'. cbn [parse_from]. rewrite Hset. split; [done |].
  rewrite Hdirs', Hdirs, <- app_assoc. f_equal.
  unfold dirs_of. rewrite filter_cons. cbn [fst].
  by repeat case_decide.
Qed.

Lemma parse_from_other (args : list (string * string)) (f f' : flags) :
  parse_from f args = inl f' →
  ("reload-url" ∉ args.*1 → reloadURLStr f' = reloadURLStr f) ∧
  ("ready-url" ∉ args.*1 → readyURLStr f' = readyURLStr f) ∧
  ("listen-address" ∉ args.*1 → listenAddress f' = listenAddress f).
Proof.
  revert f. induction args as [| [name value] args IH]; intros f.
  { by intros [= <-]. }
  cbn [parse_from]. destruct (set_flag f name value) as [f1 |] eqn:Hset; [| done].
  intros Hparse. destruct (IH _ Hparse) as (IH1 & IH2 & IH3).
  destruct (set_flag_other _ _ _ _ Hset) as (H1 & H2 & H3).
  cbn [fmap list_fmap fst]. rewrite !not_elem_of_cons.
  repeat split; intros [Hne Hnin].
  - rewrite IH1, H1; done.
  - rewrite IH2, H2; done.
  - rewrite IH3, H3; done.
Qed.

(** C9.  The flag defaults are those of the external interface:
    [reload-url] is http://127.0.0.1:19090/-/reload, [ready-url] is
    http://127.0.0.1:19090/-/ready and [listen-address] is :19091, and a
    flag absent from the command line keeps its default; [watched-dir] may
    be repeated: on a command line of registered flags, parsing succeeds
    and [watchedDirs] holds the value of every [-watched-dir] occurrence,
    in order. *)
Theorem flag_defaults_and_watched_dirs (args : list (string * string)) :
  Forall (λ a, a.1 ∈ registered) args →
  reloadURLStr defaults = "http://127.0.0.1:19090/-/reload" ∧
  readyURLStr defaults = "http://127.0.0.1:19090/-/ready" ∧
  listenAddress defaults = ":19091" ∧
  ∃ f, Parse args = inl f ∧
       watchedDirs f = dirs_of args ∧
       ("reload-url" ∉ args.*1 → reloadURLStr f = reloadURLStr defaults) ∧
       ("ready-url" ∉ args.*1 → readyURLStr f = readyURLStr defaults) ∧
       ("listen-address" ∉ args.*1 → listenAddress f = listenAddress defaults).
Proof.
  intros Hall. do 3 (split; [reflexivity |]).
  destruct (parse_from_dirs args defaults Hall) as (f & Hparse & Hdirs).
  exists f. split; [done |]. split; [done |].
  by apply parse_from_other.
Qed.

Lemma flag_defaults_and_watched_dirs_witness :
  ∃ f, Parse [("watched-dir", "/etc/rules"); ("config-file", "/etc/p.yaml");
              ("watched-dir", "/etc/secrets")] = inl f ∧
       watchedDirs f = ["/etc/rules"; "/etc/secrets"] ∧
       readyURLStr f = "http://127.0.0.1:19090/-/ready".
Proof.
  assert (Hall : Forall (λ a : string * string, a.1 ∈ registered)
                   [("watched-dir", "/etc/rules"); ("config-file", "/etc/p.yaml");
                    ("watched-dir", "/etc/secrets")]).
  { unfold registered. repeat constructor. }
  destruct (flag_defaults_and_watched_dirs _ Hall)
    as (_ & _ & _ & f & Hparse & Hdirs & _ & Hready & _).
  exists f. split; [exact Hparse |]. split; [exact Hdirs |].
  apply Hready. vm_compute. intros H.
  repeat (apply elem_of_cons in H as [H | H]; [discriminate H |]).
  by apply elem_of_nil in H.
Defined.

End FlagFacts.

(** ** The readiness gate *)
Section GateFacts.

Import Gate.

Variable e : env.
Variable url : string.

Lemma length_ticks (k n : nat) : length (ticks k n) = n.
Proof. unfold ticks. by rewrite length_fmap, length_seq. Qed.

Lemma ticks_S (k n : nat) : ticks k (S n) = tick_time (S k) :: ticks (S k) n.
Proof. reflexivity. Qed.

Lemma ticks_snoc (k n : nat) : ticks k (S n) = ticks k n ++ [tick_time (S (k + n))].
Proof. unfold ticks. by rewrite seq_S, fmap_app. Qed.

Lemma polls_S (k n : nat) :
  polls url k (S n) = (url, tick_time (S k)) :: polls url (S k) n.
Proof. reflexivity. Qed.

Lemma polls_snoc (k n : nat) :
  polls url k (S n) = polls url k n ++ [(url, tick_time (S (k + n)))].
Proof. unfold polls. by rewrite ticks_snoc, fmap_app. Qed.

Lemma polls_not_ready_S (k n : nat) :
  polls_not_ready e url k (S n) →
  (term_first e (tick_time (S k)) = false ∧
   not_ready_response (endpoint e url (tick_time (S k))) = true) ∧
  polls_not_ready e url (S k) n.
Proof.
  intros H. split; [apply H; lia |]. intros j Hj. apply H. lia.
Qed.

Lemma not_ready_response_inv (r : do_result) :
  not_ready_response r = true →
  ∃ resp, r = (Some resp, None) ∧ StatusCode resp ≠ StatusOK.
Proof.
  destruct r as [[resp |] [err |]]; cbn; try done.
  intros H%negb_true_iff%bool_decide_eq_false. by exists resp.
Qed.

Lemma ready_response_inv (r : do_result) :
  ready_response r = true →
  ∃ resp, r = (Some resp, None) ∧ StatusCode resp = StatusOK.
Proof.
  destruct r as [[resp |] [err |]]; cbn; try done.
  intros H%bool_decide_eq_true. by exists resp.
Qed.

(** [n] polls that find the endpoint not ready take the loop [n]
    iterations further and change nothing but the bookkeeping. *)
Lemma loop_not_ready (n : nat) : ∀ (k fuel : nat) (s : state),
  polls_not_ready e url k n →
  ∃ s', loop e url (n + fuel) k s = loop e url fuel (k + n) s' ∧
        requests s' = requests s ++ polls url k n ∧
        not_ready s' =
          not_ready s ++ ((λ t, code_of (endpoint e url t)) <$> ticks k n) ∧
        logs s' = logs s ∧
        deferred s' = (deferred s + n)%nat ∧
        stopped s' = stopped s ∧
        now s' = (if n is O then now s else tick_time (k + n)).
Proof.
  induction n as [| n IH]; intros k fuel s Hn.
  { exists s. rewrite !Nat.add_0_r. cbn. by rewrite !app_nil_r. }
  apply polls_not_ready_S in Hn as [[Hterm Hresp] Hn].
  apply not_ready_response_inv in Hresp as (resp & Hdo & Hcode).
  destruct (IH (S k) fuel
              (retry (StatusCode resp)
                 (defer_close (request url (tick_time (S k)) s))) Hn)
    as (s' & Hloop & Hreq & Hnr & Hlogs & Hdef & Hstop & Hnow).
  exists s'. split.
  { cbn [Nat.add loop]. rewrite Hterm, Hdo.
    rewrite bool_decide_eq_false_2 by done.
    rewrite Hloop. f_equal. lia. }
  rewrite polls_S, ticks_S, fmap_cons, Hdo. cbn [code_of fst].
  rewrite Hreq, Hnr, Hlogs, Hdef, Hstop. cbn.
  rewrite <- !app_assoc. repeat split; try done; try lia.
  destruct n; [rewrite Hnow; cbn; f_equal; lia | rewrite Hnow; f_equal; lia].
Qed.

(** The loop after [n] not-ready polls when the next poll finds the
    endpoint ready: it sends on [done]. *)
Lemma loop_ready (n k fuel : nat) (s : state) :
  polls_not_ready e url k n →
  term_first e (tick_time (S (k + n))) = false →
  ready_response (endpoint e url (tick_time (S (k + n)))) = true →
  (n < fuel)%nat →
  ∃ s', loop e url fuel k s = (Done, s') ∧
        now s' = tick_time (S (k + n)) ∧
        requests s' = requests s ++ polls url k (S n) ∧
        not_ready s' =
          not_ready s ++ ((λ t, code_of (endpoint e url t)) <$> ticks k n) ∧
        logs s' = logs s ++ [LevelInfo "ready-url is healthy"] ∧
        deferred s' = O ∧
        stopped s' = true.
Proof.
  intros Hn Hterm Hresp Hfuel.
  destruct fuel as [| fuel]; [lia |].
  destruct (loop_not_ready n k (S (fuel - n)) s Hn)
    as (s1 & Hloop & Hreq & Hnr & Hlogs & Hdef & Hstop & Hnow).
  replace (n + S (fuel - n))%nat with (S fuel) in Hloop by lia.
  apply ready_response_inv in Hresp as (resp & Hdo & Hcode).
  eexists. split.
  { rewrite Hloop. cbn [loop]. rewrite Hterm, Hdo.
    rewrite bool_decide_eq_true_2 by done. reflexivity. }
  cbn. by rewrite Hreq, Hnr, Hlogs, polls_snoc, <- app_assoc.
Qed.

(** ... when a signal is taken instead of the next tick: it exits with
    code 0. *)
Lemma loop_term (n k fuel : nat) (s : state) :
  polls_not_ready e url k n →
  term_first e (tick_time (S (k + n))) = true →
  (n < fuel)%nat →
  ∃ s', loop e url fuel k s = (Exit 0, s') ∧
        requests s' = requests s ++ polls url k n ∧
        logs s' = logs s ++ [LevelInfo "received SIGTERM, exiting gracefully..."] ∧
        stopped s' = stopped s.
Proof.
  intros Hn Hterm Hfuel.
  destruct fuel as [| fuel]; [lia |].
  destruct (loop_not_ready n k (S (fuel - n)) s Hn)
    as (s1 & Hloop & Hreq & Hnr & Hlogs & Hdef & Hstop & Hnow).
  replace (n + S (fuel - n))%nat with (S fuel) in Hloop by lia.
  eexists. split.
  { rewrite Hloop. cbn [loop]. rewrite Hterm. reflexivity. }
  cbn. by rewrite Hreq, Hlogs.
Qed.

(** ... when the next poll's [Do] returns a nil response: the deferred
    [resp.Body.Close()] dereferences it and the goroutine panics, before
    the error is looked at. *)
Lemma loop_nil_response (n k fuel : nat) (s : state) (err : option error) :
  polls_not_ready e url k n →
  term_first e (tick_time (S (k + n))) = false →
  endpoint e url (tick_time (S (k + n))) = (None, err) →
  (n < fuel)%nat →
  ∃ s', loop e url fuel k s = (Panic, s') ∧
        requests s' = requests s ++ polls url k (S n) ∧
        logs s' = logs s.
Proof.
  intros Hn Hterm Hdo Hfuel.
  destruct fuel as [| fuel]; [lia |].
  destruct (loop_not_ready n k (S (fuel - n)) s Hn)
    as (s1 & Hloop & Hreq & Hnr & Hlogs & Hdef & Hstop & Hnow).
  replace (n + S (fuel - n))%nat with (S fuel) in Hloop by lia.
  eexists. split.
  { rewrite Hloop. cbn [loop]. rewrite Hterm, Hdo. reflexivity. }
  cbn. by rewrite Hreq, Hlogs, polls_snoc, <- app_assoc.
Qed.

(** ... and as long as the endpoint is not ready the loop goes on. *)
Lemma loop_polling (n k : nat) (s : state) :
  polls_not_ready e url k n →
  ∃ s', loop e url n k s = (Polling, s') ∧
        requests s' = requests s ++ polls url k n ∧
        logs s' = logs s.
Proof.
  intros Hn.
  destruct (loop_not_ready n k O s Hn)
    as (s1 & Hloop & Hreq & Hnr & Hlogs & Hdef & Hstop & Hnow).
  rewrite Nat.add_0_r in Hloop.
  exists s1. by rewrite Hloop.
Qed.

(** Whatever happens, the requests sent are those of the first ticks, one
    per tick; none is sent only if the loop has not run or a signal was
    taken before the next tick. *)
Lemma loop_requests (fuel : nat) : ∀ (k : nat) (s : state),
  requests s = polls url 0 k →
  ∃ m, requests (loop e url fuel k s).2 = polls url 0 (k + m) ∧
       (m = O ↔ fuel = O ∨ term_first e (tick_time (S k)) = true).
Proof.
  induction fuel as [| fuel IH]; intros k s Hs.
  { exists O. rewrite Nat.add_0_r. split; [done | by intuition]. }
  cbn [loop]. destruct (term_first e _) eqn:Hterm.
  { exists O. rewrite Nat.add_0_r. split; [done | by intuition]. }
  assert (Hone : requests (request url (tick_time (S k)) s) = polls url 0 (k + 1)).
  { cbn. by rewrite Hs, Nat.add_1_r, polls_snoc. }
  assert (Hiff : ∀ m, S m = O ↔ S fuel = O ∨ false = true).
  { intros m. split; [done | by intros [? | ?]]. }
  destruct (endpoint e url _) as [[resp |] err].
  2:{ exists 1%nat. split; [done | apply Hiff]. }
  destruct err as [err |].
  { exists 1%nat. split; [done | apply Hiff]. }
  case_bool_decide.
  { exists 1%nat. split; [done | apply Hiff]. }
  destruct (IH (S k) (retry (StatusCode resp)
                        (defer_close (request url (tick_time (S k)) s))))
    as (m & Hm & _).
  { cbn. by rewrite Hs, polls_snoc. }
  exists (S m). split; [| apply Hiff]. rewrite Hm. f_equal. lia.
Qed.

End GateFacts.

Section GateClaims.

Import Gate.

(** C2.  The gate polls the ready URL every 500 ms: when the first [n]
    polls get a response with a status other than 200 and the next one
    gets 200, the gate is still polling after those [n] responses, whatever
    [n] is, and ends with Ready on the next; its requests went to the ready
    URL at 500 ms, 1000 ms, ..., one per interval with no backoff, and
    nothing was logged about the responses that were not ready. *)
Theorem gate_polls_until_status_200 (e : env) (url : string) (n fuel : nat) :
  polls_not_ready e url 0 n →
  term_first e (tick_time (S n)) = false →
  ready_response (endpoint e url (tick_time (S n))) = true →
  (n < fuel)%nat →
  (gate e url n).1 = Polling ∧
  ∃ s, gate e url fuel = (Done, s) ∧
       outcome_of Done = Some Ready ∧
       requests s =
         (λ j, (url, Z.of_nat j * (500 * GoTime.Millisecond))) <$> seq 1 (S n) ∧
       now s = Z.of_nat (S n) * (500 * GoTime.Millisecond) ∧
       length (not_ready s) = n ∧
       Forall (λ c, c ≠ 200) (not_ready s) ∧
       logs s = [LevelInfo "ensure ready-url is healthy";
                 LevelInfo "ready-url is healthy"].
Proof.
  intros Hn Hterm Hresp Hfuel. split.
  { unfold gate.
    by destruct (loop_polling e url n 0
                   (log (LevelInfo "ensure ready-url is healthy") init) Hn)
      as (s & -> & _). }
  unfold gate.
  destruct (loop_ready e url n 0 fuel
              (log (LevelInfo "ensure ready-url is healthy") init)
              Hn Hterm Hresp Hfuel)
    as (s & Hloop & Hnow & Hreq & Hnr & Hlogs & _).
  exists s. split; [done |]. split; [done |].
  split; [rewrite Hreq; unfold polls, ticks; by rewrite <- list_fmap_compose |].
  split; [by rewrite Hnow |].
  split; [by rewrite Hnr, app_nil_l, length_fmap, length_ticks |].
  split; [| by rewrite Hlogs].
  rewrite Hnr, app_nil_l. unfold ticks. apply Forall_fmap, Forall_fmap, Forall_forall.
  intros j Hj%elem_of_seq. cbn.
  destruct (Hn j ltac:(lia)) as [_ Hj'].
  apply not_ready_response_inv in Hj' as (resp & -> & Hcode). done.
Qed.

Lemma gate_polls_until_status_200_witness :
  (gate Scenario.ready_on_4th_poll "http://127.0.0.1:19090/-/ready" 3).1 = Polling ∧
  ∃ s, gate Scenario.ready_on_4th_poll "http://127.0.0.1:19090/-/ready" 4 = (Done, s) ∧
       (requests s).*2 = [500000000; 1000000000; 1500000000; 2000000000] ∧
       length (not_ready s) = 3%nat.
Proof.
  assert (H1 : polls_not_ready Scenario.ready_on_4th_poll
                 "http://127.0.0.1:19090/-/ready" 0 3).
  { intros j Hj. assert (j = 1 ∨ j = 2 ∨ j = 3)%nat as [-> | [-> | ->]] by lia; done. }
  destruct (gate_polls_until_status_200 Scenario.ready_on_4th_poll
              "http://127.0.0.1:19090/-/ready" 3 4 H1 eq_refl eq_refl ltac:(lia))
    as (Hp & s & Hs & _ & Hreq & _ & Hlen & _).
  split; [exact Hp |]. exists s. split; [exact Hs |].
  split; [by rewrite Hreq | exact Hlen].
Defined.

(** The gate never gives up on an endpoint that is not ready. *)
Lemma gate_keeps_polling (e : env) (url : string) (fuel : nat) :
  polls_not_ready e url 0 fuel →
  ∃ s, gate e url fuel = (Polling, s) ∧ requests s = polls url 0 fuel.
Proof.
  intros Hn. unfold gate.
  destruct (loop_polling e url fuel 0
              (log (LevelInfo "ensure ready-url is healthy") init) Hn)
    as (s & Hloop & Hreq & _).
  exists s. by rewrite Hloop, Hreq.
Qed.

(** C3.  What the code does on a transport error: [Do] returns a nil
    response with the error, the deferred [resp.Body.Close()] dereferences
    the nil response before [err] is checked, and the goroutine panics.
    The error branch is not reached: nothing is logged about the error and
    the gate does not end with Failed through [os.Exit(1)]. *)
Theorem gate_transport_error_panics
    (e : env) (url : string) (n fuel : nat) (msg : error) :
  polls_not_ready e url 0 n →
  term_first e (tick_time (S n)) = false →
  endpoint e url (tick_time (S n)) = transport_error msg →
  (n < fuel)%nat →
  ∃ s, gate e url fuel = (Panic, s) ∧
       outcome_of Panic ≠ Some Failed ∧
       logs s = [LevelInfo "ensure ready-url is healthy"].
Proof.
  intros Hn Hterm Hdo Hfuel. unfold gate.
  destruct (loop_nil_response e url n 0 fuel
              (log (LevelInfo "ensure ready-url is healthy") init)
              (Some msg) Hn Hterm Hdo Hfuel)
    as (s & Hloop & _ & Hlogs).
  exists s. by rewrite Hloop, Hlogs.
Qed.

Lemma gate_transport_error_panics_witness :
  ∃ s, gate Scenario.connection_refused "http://127.0.0.1:19090/-/ready" 1
         = (Panic, s) ∧
       logs s = [LevelInfo "ensure ready-url is healthy"].
Proof.
  assert (H0 : polls_not_ready Scenario.connection_refused
                 "http://127.0.0.1:19090/-/ready" 0 0).
  { intros j Hj. lia. }
  destruct (gate_transport_error_panics Scenario.connection_refused
              "http://127.0.0.1:19090/-/ready" 0 1
              "connect: connection refused" H0 eq_refl eq_refl ltac:(lia))
    as (s & Hs & _ & Hlogs).
  exists s. split; [exact Hs | exact Hlogs].
Defined.

(** The error branch is reached only when [Do] returns a response along
    with the error; it then logs the error and exits with code 1. *)
Lemma gate_error_with_response
    (e : env) (url : string) (fuel : nat) (resp : Response) (msg : error) :
  term_first e (tick_time 1) = false →
  endpoint e url (tick_time 1) = (Some resp, Some msg) →
  ∃ s, gate e url (S fuel) = (Exit 1, s) ∧
       logs s = [LevelInfo "ensure ready-url is healthy";
                 LevelError "polling ready-url" (Some msg)].
Proof.
  intros Hterm Hdo. unfold gate. cbn [loop]. rewrite Hterm, Hdo.
  eexists. split; reflexivity.
Qed.

Lemma scenario_run (url : string) (fuel : nat) :
  (3 ≤ fuel)%nat →
  ∃ s, gate Scenario.ready_at_1500ms url fuel = (Done, s) ∧
       now s = 1500 * GoTime.Millisecond ∧
       requests s = [(url, 500 * GoTime.Millisecond); (url, 1000 * GoTime.Millisecond);
                     (url, 1500 * GoTime.Millisecond)] ∧
       not_ready s = [503; 503].
Proof.
  intros Hfuel. unfold gate.
  assert (H2 : polls_not_ready Scenario.ready_at_1500ms url 0 2).
  { intros j Hj. assert (j = 1 ∨ j = 2)%nat as [-> | ->] by lia; done. }
  destruct (loop_ready Scenario.ready_at_1500ms url 2 0 fuel
              (log (LevelInfo "ensure ready-url is healthy") init)
              H2 eq_refl eq_refl ltac:(lia))
    as (s & Hloop & Hnow & Hreq & Hnr & _).
  exists s. split; [done |].
  split; [by rewrite Hnow |]. split; [by rewrite Hreq | by rewrite Hnr].
Qed.

(** C4, as the code has it.  With the endpoint answering 503 before
    t = 1.5 s and 200 from then on, and 500 ms polling started at t = 0,
    the gate returns Ready at t = 1.5 s on its third poll: the polls at
    0.5 s and 1.0 s are the only unsuccessful ones, two and not three. *)
Theorem scenario_ready_after_two_failed_polls (url : string) (fuel : nat) :
  (3 ≤ fuel)%nat →
  ∃ s, gate Scenario.ready_at_1500ms url fuel = (Done, s) ∧
       outcome_of Done = Some Ready ∧
       now s = 1500 * GoTime.Millisecond ∧
       (requests s).*2 = [500 * GoTime.Millisecond; 1000 * GoTime.Millisecond;
                          1500 * GoTime.Millisecond] ∧
       length (not_ready s) = 2%nat ∧
       not_ready s = [503; 503].
Proof.
  intros Hfuel.
  destruct (scenario_run url fuel Hfuel) as (s & Hs & Hnow & Hreq & Hnr).
  exists s. by rewrite Hnr, Hreq.
Qed.

Lemma scenario_ready_after_two_failed_polls_witness :
  ∃ s, gate Scenario.ready_at_1500ms "http://127.0.0.1:19090/-/ready" 3 = (Done, s) ∧
       now s = 1500000000 ∧ not_ready s = [503; 503].
Proof.
  destruct (scenario_ready_after_two_failed_polls
              "http://127.0.0.1:19090/-/ready" 3 ltac:(lia))
    as (s & Hs & _ & Hnow & _ & _ & Hnr).
  exists s. split; [exact Hs |]. split; [exact Hnow | exact Hnr].
Defined.

(** C4, as stated, fails: in that scenario the gate never returns Ready at
    t = 1.5 s after exactly three unsuccessful polls, however long it is
    left to run. *)
Lemma scenario_not_three_failed_polls :
  ¬ ∃ fuel s,
      gate Scenario.ready_at_1500ms "http://127.0.0.1:19090/-/ready" fuel = (Done, s) ∧
      now s = 1500 * GoTime.Millisecond ∧
      length (not_ready s) = 3%nat.
Proof.
  intros (fuel & s & Hs & _ & Hlen).
  destruct (decide (3 ≤ fuel)%nat) as [Hfuel | Hfuel].
  - destruct (scenario_run "http://127.0.0.1:19090/-/ready" fuel Hfuel)
      as (s' & Hs' & _ & _ & Hnr).
    rewrite Hs in Hs'. injection Hs' as ->. by rewrite Hnr in Hlen.
  - assert (fuel = 0 ∨ fuel = 1 ∨ fuel = 2)%nat as [-> | [-> | ->]] by lia;
      discriminate Hs.
Qed.

(** Three unsuccessful polls before the successful one put Ready at
    t = 2.0 s. *)
Lemma scenario_three_failed_polls_ready_at_2s :
  ∃ s, gate Scenario.ready_on_4th_poll "http://127.0.0.1:19090/-/ready" 4 = (Done, s) ∧
       now s = 2000 * GoTime.Millisecond ∧ not_ready s = [503; 503; 503].
Proof. eexists. split; [reflexivity |]. split; reflexivity. Qed.

(** C10.  The first health request is sent one full 500 ms interval after
    the gate starts and none is sent at the start: in every run the
    requests made so far are those of the ticks at 500 ms, 1000 ms, ...,
    and there is none at all exactly when the loop has not run yet or a
    signal was taken before the first tick. *)
Theorem first_request_after_one_interval (e : env) (url : string) (fuel : nat) :
  ∃ m, (requests (gate e url fuel).2).*2 =
         (λ j, Z.of_nat j * (500 * GoTime.Millisecond)) <$> seq 1 m ∧
       Forall (λ t, 500 * GoTime.Millisecond ≤ t) (requests (gate e url fuel).2).*2 ∧
       head (requests (gate e url fuel).2).*2 ≠ Some 0 ∧
       (m = O ↔ fuel = O ∨ term_first e (tick_time 1) = true).
Proof.
  unfold gate.
  destruct (loop_requests e url fuel 0
              (log (LevelInfo "ensure ready-url is healthy") init))
    as (m & Hm & Hiff); [done |].
  exists m. rewrite Hm. cbn [Nat.add].
  assert (Heq : (polls url 0 m).*2 = ticks 0 m).
  { unfold polls. rewrite <- list_fmap_compose. apply list_fmap_id. }
  rewrite Heq.
  assert (Hall : Forall (λ t, 500 * GoTime.Millisecond ≤ t) (ticks 0 m)).
  { unfold ticks. apply Forall_fmap, Forall_forall.
    intros j Hj%elem_of_seq. cbn. unfold tick_time, poll_interval.
    change (500 * GoTime.Millisecond) with 500000000. lia. }
  split; [done |]. split; [done |]. split; [| done].
  destruct (ticks 0 m) as [| t ts]; [done |].
  apply Forall_cons in Hall as [Ht _]. cbn. intros [= ->]. done.
Qed.

End GateClaims.


(** ** The supervisor *)
Section GroupFacts.

Import Group.

Variable actors : list actor.

Lemma interrupted_below_same (i k : nat) (s s' : state) :
  interrupts s' = interrupts s →
  interrupted_below actors i k s → interrupted_below actors i k s'.
Proof. unfold interrupted_below. by intros ->. Qed.

Lemma first_returned_snoc (s : state) (i : nat) (x : nat * option error) :
  first_returned s = Some i →
  fst <$> head (returned s ++ [x]) = Some i.
Proof.
  unfold first_returned. by destruct (returned s).
Qed.

Lemma forallb_lookup {A} (p : A → bool) (l : list A) (i : nat) (x : A) :
  forallb p l = true → l !! i = Some x → p x = true.
Proof.
  intros Hall Hx. rewrite forallb_forall in Hall.
  apply Hall, list_elem_of_In. by eapply list_elem_of_lookup_2.
Qed.

Lemma snoc_eq_middle {A} (l pre post : list A) (x y : A) :
  l ++ [x] = pre ++ y :: post →
  (post = [] ∧ l = pre ∧ x = y) ∨ (∃ post', post = post' ++ [x] ∧ l = pre ++ y :: post').
Proof.
  intros H. destruct (decide (post = [])) as [-> | Hne].
  - left. apply app_inj_tail in H as [-> ->]. done.
  - right. destruct (@exists_last _ post Hne) as (post' & z & ->).
    change (pre ++ y :: post' ++ [z]) with (pre ++ (y :: post') ++ [z]) in H.
    rewrite app_assoc in H. apply app_inj_tail in H as [-> ->]. eauto.
Qed.

Lemma interrupts_follow_return_snoc (tr : list event) (ev : event) :
  interrupts_follow_return tr →
  (∀ j, ev = Interrupt j → ∃ i o, Return i o ∈ tr) →
  interrupts_follow_return (tr ++ [ev]).
Proof.
  intros Htr Hev pre j post Heq.
  apply snoc_eq_middle in Heq as [(-> & -> & ->) | (post' & -> & ->)].
  - by apply (Hev j).
  - by apply (Htr pre j post').
Qed.

Lemma init_inv : inv actors (init actors).
Proof.
  split; cbn.
  - by rewrite length_replicate.
  - by rewrite length_replicate.
  - intros j Hj. cbn. rewrite lookup_replicate_2 by done.
    by rewrite decide_False by lia.
  - intros i o Hin. by apply elem_of_nil in Hin.
  - intros pre j post Heq. by destruct pre.
Qed.

Lemma sup_step_inv (s : state) : inv actors s → inv actors (sup_step actors s).
Proof.
  intros [Hst Hint Hph Hret Htr]. unfold sup_step.
  unfold phase_inv in Hph.
  destruct (phase_of s) as [k | | i k | i | r] eqn:Hphase.
  - (* Starting *)
    case_decide.
    + split; cbn; [by rewrite length_insert | done | by apply Hph | |].
      * intros i o Hin. apply elem_of_app. left. by apply Hret.
      * apply interrupts_follow_return_snoc; [done | by intros j [=]].
    + split; [done | done | by apply Hph | done | done].
  - (* Waiting *)
    destruct (returned s) as [| [i o] rest] eqn:Hreturned.
    + split; [done | done | | by rewrite Hreturned | done].
      unfold phase_inv. by rewrite Hphase.
    + split; cbn; [done | done | | done | done].
      split; [done |]. intros j Hj. cbn. rewrite (Hph j Hj).
      repeat case_decide; done || lia.
  - (* Interrupting *)
    destruct Hph as [Hfirst Hbelow]. case_decide; [case_decide |].
    + subst k. split; cbn; [done | done | | done | done].
      split; [done |]. intros j Hj. cbn. rewrite (Hbelow j Hj).
      repeat case_decide; done || lia.
    + split; cbn; [done | by rewrite length_insert | | |].
      * split; [done |]. intros j Hj. cbn.
        destruct (decide (j = k)) as [-> | Hne].
        -- rewrite list_lookup_insert_eq by lia. rewrite (Hbelow k Hj). cbn.
           repeat case_decide; done || lia.
        -- rewrite list_lookup_insert_ne by done. rewrite (Hbelow j Hj).
           repeat case_decide; done || lia.
      * intros i' o Hin. apply elem_of_app. left. by apply Hret.
      * apply interrupts_follow_return_snoc; [done |]. intros _ _.
        unfold first_returned in Hfirst.
        destruct (returned s) as [| [i' o] rest] eqn:Hreturned; [done |].
        exists i', o. apply Hret. by left.
    + split; cbn; [done | done | | done | done].
      split; [done |]. intros j Hj. cbn. rewrite (Hbelow j Hj).
      repeat case_decide; done || lia.
  - (* Joining *)
    destruct Hph as [Hfirst Hbelow].
    destruct (forallb is_returned (statuses s)) eqn:Hall.
    + split; cbn; [done | done | | |].
      * split; [by exists i | done].
      * intros i' o Hin. apply elem_of_app. left. by apply Hret.
      * apply interrupts_follow_return_snoc; [done | by intros j [=]].
    + split; [done | done | | done | done].
      unfold phase_inv. by rewrite Hphase.
  - (* Finished *)
    split; [done | done | | done | done].
    unfold phase_inv. by rewrite Hphase.
Qed.

Lemma act_step_inv (i : nat) (s : state) : inv actors s → inv actors (act_step actors i s).
Proof.
  intros [Hst Hint Hph Hret Htr]. unfold act_step.
  destruct (statuses s !! i) as [[| | o] |] eqn:Hi; try by split.
  destruct (actors !! i) as [a |] eqn:Ha; [| by split].
  split; cbn; [by rewrite length_insert | done | | |].
  - unfold phase_inv in *. cbn.
    destruct (phase_of s) as [k | | i' k | i' | r]; try done.
    + destruct Hph as [Hfirst Hbelow]. split; [| done].
      by apply first_returned_snoc.
    + destruct Hph as [Hfirst Hbelow]. split; [| done].
      by apply first_returned_snoc.
    + destruct Hph as (_ & Hall & _).
      by pose proof (forallb_lookup _ _ _ _ Hall Hi).
  - intros i' o Hin. apply elem_of_app.
    apply elem_of_app in Hin as [Hin | Hin%list_elem_of_singleton].
    + left. by apply Hret.
    + right. injection Hin as -> ->. by apply list_elem_of_singleton.
  - apply interrupts_follow_return_snoc; [done | by intros j [=]].
Qed.

Lemma exec_inv (sched : list choice) : ∀ s, inv actors s → inv actors (exec actors sched s).
Proof.
  induction sched as [| c sched IH]; intros s Hs; [done |].
  cbn. apply IH. destruct c; [by apply sup_step_inv | by apply act_step_inv].
Qed.

Lemma Run_inv (sched : list choice) : inv actors (Run actors sched).
Proof. apply exec_inv, init_inv. Qed.


Lemma exec_app (l1 l2 : list choice) (s : state) :
  exec actors (l1 ++ l2) s = exec actors l2 (exec actors l1 s).
Proof. apply foldl_app. Qed.

Lemma exec_cons (c : choice) (l : list choice) (s : state) :
  exec actors (c :: l) s = exec actors l (step actors c s).
Proof. reflexivity. Qed.

Lemma exec_Sup_S (m : nat) (s : state) :
  exec actors (replicate (S m) Sup) s = sup_step actors (exec actors (replicate m Sup) s).
Proof. by rewrite replicate_S_end, exec_app. Qed.

Lemma init_live : live actors (init actors).
Proof.
  split; cbn.
  - intros j Hj. lia.
  - intros i o Hi. apply lookup_replicate in Hi as [[=] _].
Qed.

Lemma sup_step_live (s : state) :
  inv actors s → live actors s → live actors (sup_step actors s).
Proof.
  intros [Hst _ _ _ _] [Hstart Hret]. unfold sup_step.
  destruct (phase_of s) as [k | | i k | i | r] eqn:Hphase.
  - case_decide.
    + split; cbn.
      * intros j Hj Hn. cbn. destruct (decide (j = k)) as [-> | Hne].
        -- by rewrite list_lookup_insert_eq by lia.
        -- rewrite list_lookup_insert_ne by done. apply Hstart; lia.
      * intros i o Hi. apply Hret.
        destruct (decide (i = k)) as [-> | Hne].
        -- rewrite list_lookup_insert_eq in Hi by lia. done.
        -- by rewrite list_lookup_insert_ne in Hi.
    + split; cbn; [| done]. intros j _ Hj. apply Hstart; lia.
  - destruct (returned s) as [| [i o] rest] eqn:Hreturned.
    + split; [by rewrite Hphase | by rewrite Hreturned].
    + by split.
  - case_decide; [case_decide |]; by split.
  - destruct (forallb _ _); [by split |]. split; [by rewrite Hphase | done].
  - split; [by rewrite Hphase | done].
Qed.

Lemma act_step_phase (i : nat) (s : state) :
  phase_of (act_step actors i s) = phase_of s.
Proof.
  unfold act_step. by destruct (statuses s !! i) as [[] |], (actors !! i).
Qed.

Lemma act_step_live (i : nat) (s : state) :
  inv actors s → live actors s → live actors (act_step actors i s).
Proof.
  intros [Hst _ _ _ _] [Hstart Hret].
  pose proof (act_step_phase i s) as Hphase. unfold act_step in *.
  destruct (statuses s !! i) as [[| | o] |] eqn:Hi; try by split.
  destruct (actors !! i) as [a |] eqn:Ha; [| by split].
  cbn in Hphase. split; cbn.
  - intros j Hj Hn. cbn. destruct (decide (j = i)) as [-> | Hne].
    + rewrite list_lookup_insert_eq; [done |]. by eapply lookup_lt_Some.
    + rewrite list_lookup_insert_ne by done. by apply Hstart.
  - intros i' o' Hi'. apply elem_of_app.
    destruct (decide (i' = i)) as [-> | Hne].
    + rewrite list_lookup_insert_eq in Hi'; [| by eapply lookup_lt_Some].
      injection Hi' as <-. right. by apply list_elem_of_singleton.
    + rewrite list_lookup_insert_ne in Hi' by done. left. by apply Hret.
Qed.

Lemma exec_live (sched : list choice) : ∀ s,
  inv actors s → live actors s →
  inv actors (exec actors sched s) ∧ live actors (exec actors sched s).
Proof.
  induction sched as [| c sched IH]; intros s Hinv Hlive; [done |].
  cbn. destruct c as [| i]; apply IH.
  - by apply sup_step_inv.
  - by apply sup_step_live.
  - by apply act_step_inv.
  - by apply act_step_live.
Qed.

(** The supervisor's own steps bring it closer to its return, unless it
    waits for an actor. *)
Lemma sup_step_rank (s : state) :
  (rank actors (phase_of (sup_step actors s)) ≤ rank actors (phase_of s))%nat.
Proof.
  unfold sup_step. destruct (phase_of s) as [k | | i k | i | r] eqn:Hphase.
  - case_decide; cbn; lia.
  - destruct (returned s) as [| [i o] rest]; [by rewrite Hphase |]. cbn. lia.
  - case_decide; [case_decide |]; cbn; lia.
  - destruct (forallb _ _); [cbn; lia | by rewrite Hphase].
  - by rewrite Hphase.
Qed.

Lemma sup_step_rank_starting (s : state) :
  is_starting (phase_of s) = true →
  (rank actors (phase_of (sup_step actors s)) < rank actors (phase_of s))%nat.
Proof.
  unfold sup_step. destruct (phase_of s) as [k | | i k | i | r]; try done.
  intros _. case_decide; cbn; lia.
Qed.

Lemma sup_step_rank_returned (s : state) :
  returned s ≠ [] →
  forallb is_returned (statuses s) = true →
  (0 < rank actors (phase_of s))%nat →
  (rank actors (phase_of (sup_step actors s)) < rank actors (phase_of s))%nat.
Proof.
  intros Hret Hall. unfold sup_step.
  destruct (phase_of s) as [k | | i k | i | r] eqn:Hphase.
  - case_decide; cbn; lia.
  - destruct (returned s) as [| [i o] rest]; [done |]. cbn. lia.
  - case_decide; [case_decide |]; cbn; lia.
  - rewrite Hall. cbn. lia.
  - cbn. lia.
Qed.

Lemma sup_step_keeps (s : state) :
  is_starting (phase_of s) = false →
  statuses (sup_step actors s) = statuses s ∧
  returned (sup_step actors s) = returned s ∧
  is_starting (phase_of (sup_step actors s)) = false.
Proof.
  unfold sup_step. destruct (phase_of s) as [k | | i k | i | r] eqn:Hphase; try done.
  - intros _. destruct (returned s) as [| [i o] rest] eqn:Hreturned;
      [by rewrite Hphase, Hreturned | done].
  - intros _. case_decide; [case_decide |]; done.
  - intros _. destruct (forallb _ _); [done | by rewrite Hphase].
  - intros _. by rewrite Hphase.
Qed.

(** After [n + 1] steps the supervisor has started every actor. *)
Lemma started_after (m : nat) : ∀ s,
  is_starting (phase_of (exec actors (replicate m Sup) s)) = true →
  (rank actors (phase_of (exec actors (replicate m Sup) s)) + m
     ≤ rank actors (phase_of s))%nat.
Proof.
  induction m as [| m IH]; intros s; [cbn; lia |].
  rewrite exec_Sup_S. intros Hstart.
  destruct (is_starting (phase_of (exec actors (replicate m Sup) s))) eqn:Hprev.
  - pose proof (IH s Hprev). pose proof (sup_step_rank_starting _ Hprev). lia.
  - apply sup_step_keeps in Hprev as (_ & _ & Hprev). congruence.
Qed.

Lemma exec_acts_phase (l : list nat) : ∀ s,
  phase_of (exec actors (Act <$> l) s) = phase_of s.
Proof.
  induction l as [| i l IH]; intros s; [done |].
  rewrite fmap_cons, exec_cons, IH. apply act_step_phase.
Qed.

Lemma act_step_keeps (i j : nat) (s : state) :
  returned_at s j → returned_at (act_step actors i s) j.
Proof.
  intros [o Hj]. unfold act_step.
  destruct (statuses s !! i) as [[| | o'] |] eqn:Hi; try by exists o.
  destruct (actors !! i) as [a |]; [| by exists o].
  exists o. cbn. rewrite list_lookup_insert_ne; [done |]. congruence.
Qed.

Lemma act_step_returns (j : nat) (s : state) :
  (j < length actors)%nat →
  length (statuses s) = length actors →
  statuses s !! j ≠ Some Idle →
  returned_at (act_step actors j s) j.
Proof.
  intros Hj Hlen Hidle. unfold act_step.
  destruct (lookup_lt_is_Some_2 (statuses s) j ltac:(lia)) as [st Hst].
  destruct (lookup_lt_is_Some_2 actors j Hj) as [a Ha].
  rewrite Hst, Ha. destruct st as [| | o]; [done | | by exists o].
  eexists. cbn. apply list_lookup_insert_eq. lia.
Qed.

Lemma exec_acts_keep (l : list nat) (j : nat) : ∀ s,
  returned_at s j → returned_at (exec actors (Act <$> l) s) j.
Proof.
  induction l as [| i l IH]; intros s Hj; [done |].
  rewrite fmap_cons, exec_cons. by apply IH, act_step_keeps.
Qed.

(** Once started, the actors that are given a step have returned. *)
Lemma exec_acts_returned (l : list nat) : ∀ s,
  inv actors s → live actors s →
  is_starting (phase_of s) = false →
  ∀ j, j ∈ l → (j < length actors)%nat →
       returned_at (exec actors (Act <$> l) s) j.
Proof.
  induction l as [| i l IH]; intros s Hinv Hlive Hphase j Hin Hj.
  { by apply elem_of_nil in Hin. }
  rewrite fmap_cons, exec_cons. cbn [step].
  apply elem_of_cons in Hin as [-> | Hin].
  - apply exec_acts_keep, act_step_returns; [done | by destruct Hinv |].
    destruct Hlive as [Hstart _].
    destruct (phase_of s); [done | by apply Hstart ..].
  - apply IH; [by apply act_step_inv | by apply act_step_live | | done | done].
    by rewrite act_step_phase.
Qed.

Lemma all_returned (s : state) :
  (∀ j, (j < length (statuses s))%nat → returned_at s j) →
  forallb is_returned (statuses s) = true.
Proof.
  intros Hall. apply forallb_forall. intros st Hin%list_elem_of_In.
  apply list_elem_of_lookup in Hin as [j Hj].
  destruct (Hall j) as [o Ho]; [by eapply lookup_lt_Some |].
  rewrite Hj in Ho. by injection Ho as ->.
Qed.

Lemma exec_sups_keep (m : nat) : ∀ s,
  is_starting (phase_of s) = false →
  statuses (exec actors (replicate m Sup) s) = statuses s ∧
  returned (exec actors (replicate m Sup) s) = returned s ∧
  is_starting (phase_of (exec actors (replicate m Sup) s)) = false.
Proof.
  induction m as [| m IH]; intros s Hphase; [done |].
  rewrite exec_Sup_S. destruct (IH s Hphase) as (Hst & Hret & Hph).
  destruct (sup_step_keeps _ Hph) as (Hst' & Hret' & Hph').
  by rewrite Hst', Hret', Hst, Hret.
Qed.

(** When all actors have returned, each step of the supervisor takes it
    closer to its own return. *)
Lemma exec_sups_rank (m : nat) : ∀ s,
  is_starting (phase_of s) = false →
  returned s ≠ [] →
  forallb is_returned (statuses s) = true →
  (rank actors (phase_of (exec actors (replicate m Sup) s))
     ≤ rank actors (phase_of s) - m)%nat.
Proof.
  induction m as [| m IH]; intros s Hphase Hret Hall; [cbn; lia |].
  rewrite exec_Sup_S. specialize (IH s Hphase Hret Hall).
  destruct (exec_sups_keep m s Hphase) as (Hst & Hret' & _).
  destruct (decide (0 < rank actors (phase_of (exec actors (replicate m Sup) s)))%nat)
    as [Hpos | Hzero].
  - pose proof (sup_step_rank_returned (exec actors (replicate m Sup) s)) as Hlt.
    rewrite Hst, Hret' in Hlt. specialize (Hlt Hret Hall Hpos). lia.
  - pose proof (sup_step_rank (exec actors (replicate m Sup) s)). lia.
Qed.

Lemma rank_bound (p : phase) :
  (rank actors p ≤ 2 * length actors + 4)%nat ∧
  (is_starting p = true → length actors + 4 ≤ rank actors p)%nat ∧
  (is_starting p = false → rank actors p ≤ length actors + 3)%nat ∧
  (rank actors p = 0 → ∃ r, p = Finished r)%nat.
Proof.
  destruct p as [k | | i k | i | r]; cbn; repeat split; try lia; try done.
  intros _. by exists r.
Qed.

(** The supervisor's run call returns: whatever happened so far, once
    every actor has returned and the supervisor has had its turns, it has
    a result. *)
Lemma supervisor_returns (sched : list choice) :
  actors ≠ [] →
  ∃ r, result (Run actors (sched ++ drain (length actors))) = Some r.
Proof.
  intros Hne. unfold Run, drain. rewrite !exec_app.
  set (s0 := exec actors sched (init actors)).
  set (s1 := exec actors (replicate (S (length actors)) Sup) s0).
  set (s2 := exec actors (Act <$> seq 0 (length actors)) s1).
  destruct (exec_live sched _ init_inv init_live) as [Hinv0 Hlive0]. fold s0 in Hinv0, Hlive0.
  destruct (exec_live (replicate (S (length actors)) Sup) _ Hinv0 Hlive0) as [Hinv1 Hlive1].
  fold s1 in Hinv1, Hlive1.
  assert (Hph1 : is_starting (phase_of s1) = false).
  { destruct (is_starting (phase_of s1)) eqn:Hstart; [| done].
    pose proof (started_after (S (length actors)) s0 Hstart) as Hrank. fold s1 in Hrank.
    destruct (rank_bound (phase_of s1)) as (_ & Hlow & _).
    destruct (rank_bound (phase_of s0)) as (Hup & _). specialize (Hlow Hstart). lia. }
  assert (Hph2 : is_starting (phase_of s2) = false).
  { unfold s2. by rewrite exec_acts_phase. }
  assert (Hat : ∀ j, (j < length actors)%nat → returned_at s2 j).
  { intros j Hj. apply exec_acts_returned; try done. apply elem_of_seq. lia. }
  destruct (exec_live (Act <$> seq 0 (length actors)) _ Hinv1 Hlive1) as [Hinv2 Hlive2].
  fold s2 in Hinv2, Hlive2.
  assert (Hall : forallb is_returned (statuses s2) = true).
  { apply all_returned. intros j Hj. apply Hat. by rewrite <- (inv_statuses _ _ Hinv2). }
  assert (Hret : returned s2 ≠ []).
  { destruct (Hat O) as [o Ho].
    { destruct actors; [done | cbn; lia]. }
    apply (live_returned _ _ Hlive2) in Ho. intros Hnil. rewrite Hnil in Ho.
    by apply elem_of_nil in Ho. }
  pose proof (exec_sups_rank (length actors + 3) s2 Hph2 Hret Hall) as Hrank.
  destruct (rank_bound (phase_of s2)) as (_ & _ & Hup & _). specialize (Hup Hph2).
  destruct (rank_bound (phase_of (exec actors (replicate (length actors + 3) Sup) s2)))
    as (_ & _ & _ & Hfin).
  destruct Hfin as [r Hr]; [lia |].
  exists r. unfold result. by rewrite Hr.
Qed.

End GroupFacts.

(** At no point of a run has an actor been interrupted more than once. *)
Lemma interrupted_at_most_once (actors : list Group.actor) (sched : list Group.choice)
    (j c : nat) :
  Group.interrupts (Group.Run actors sched) !! j = Some c → (c ≤ 1)%nat.
Proof.
  destruct (Run_inv actors sched) as [_ Hint Hph _ _]. intros Hj.
  assert (Hlt : (j < length actors)%nat).
  { rewrite <- Hint. by eapply lookup_lt_Some. }
  assert (Hbelow : ∃ i k, Group.interrupted_below actors i k (Group.Run actors sched)).
  { unfold Group.phase_inv in Hph.
    destruct (Group.phase_of _) as [k | | i k | i | r].
    - eauto.
    - eauto.
    - destruct Hph as [_ Hph]. eauto.
    - destruct Hph as [_ Hph]. eauto.
    - destruct Hph as [(i & _ & Hph) _]. eauto. }
  destruct Hbelow as (i & k & Hbelow).
  rewrite (Hbelow j Hlt) in Hj. injection Hj as <-. case_decide; lia.
Qed.



(** ** The actors *)
Section ActorFacts.

Import Actors.

(** C8.  The metrics server's interrupt function shuts the server down
    with a grace period of exactly one minute: from the call on no new
    connection is accepted, and the call waits for the in-flight requests
    for at most one minute; when they take longer the attempt is given up
    after that minute, which the function only logs. *)
Theorem metrics_interrupt_grace_period (t : Z) (idle_at : option Z) :
  grace_period = 60 * GoTime.Second ∧
  grace_period = 60000000000 ∧
  closed_at (metrics_interrupt t idle_at).2 = t ∧
  t ≤ returned_at (metrics_interrupt t idle_at).2 ≤ t + 60 * GoTime.Second ∧
  ((∃ t', idle_at = Some t' ∧ t' ≤ t + 60 * GoTime.Second ∧
          returned_at (metrics_interrupt t idle_at).2 = Z.max t t' ∧
          shutdown_err (metrics_interrupt t idle_at).2 = None ∧
          (metrics_interrupt t idle_at).1 = []) ∨
   ((∀ t', idle_at = Some t' → t + 60 * GoTime.Second < t') ∧
    returned_at (metrics_interrupt t idle_at).2 = t + 60 * GoTime.Second ∧
    shutdown_err (metrics_interrupt t idle_at).2 = Some "context deadline exceeded" ∧
    (metrics_interrupt t idle_at).1 =
      [LevelError "Server failed to shut down gracefully." None])).
Proof.
  split; [reflexivity |]. split; [reflexivity |].
  unfold metrics_interrupt, Shutdown, WithTimeout.
  change GoTime.Minute with 60000000000. change (60 * GoTime.Second) with 60000000000.
  destruct idle_at as [t' |]; [case_bool_decide |]; cbn.
  - split; [done |]. split; [lia |]. left. exists t'. by repeat split.
  - split; [done |]. split; [lia |]. right.
    split; [intros t'' [= <-]; lia |]. split; [lia | done].
  - split; [done |]. split; [lia |]. right.
    split; [done |]. split; [lia | done].
Qed.

End ActorFacts.

(** ** [main] *)
Section MainFacts.

Import Main.

Lemma no_actor_logs (ls : list log_line) :
  Forall (λ ev, of_actor ev = false) (Log <$> ls).
Proof. apply Forall_fmap, Forall_forall. by intros l _. Qed.

Lemma gated_after_done (pre post : list event) :
  Forall (λ ev, of_actor ev = false) pre → gated (pre ++ GateDone :: post).
Proof.
  intros Hall i ev Hi Hev.
  destruct (decide (i < length pre)%nat) as [Hlt | Hge].
  - rewrite lookup_app_l in Hi by done. rewrite Forall_lookup in Hall.
    specialize (Hall i ev Hi). cbn in Hall. congruence.
  - destruct (decide (i = length pre)) as [-> | Hne].
    + rewrite list_lookup_middle in Hi by done. by injection Hi as <-.
    + exists (length pre). split; [lia |]. by apply list_lookup_middle.
Qed.

(** The trace of [main]: either no actor appears in it, or the gate ended
    with [done] and that is in the trace before any actor. *)
Lemma main_trace (fuel : nat) (w : world) :
  Forall (λ ev, of_actor ev = false) (main fuel w).1 ∨
  ∃ f, Flags.Parse (args w) = inl f ∧
       (Gate.gate (ready w) (Flags.readyURLStr f) fuel).1 = Gate.Done ∧
       ∃ pre post, (main fuel w).1 = pre ++ GateDone :: post ∧
                   Forall (λ ev, of_actor ev = false) pre.
Proof.
  unfold main, flag_Parse, wait_ready.
  destruct (Flags.Parse (args w)) as [f | e]; cbn; [| by left].
  destruct (url_Parse w _) as [e |]; cbn; [left; by repeat constructor |].
  destruct (http_NewRequest w _) as [e |]; cbn; [left; by repeat constructor |].
  destruct (Gate.gate (ready w) _ fuel) as [[| c | |] s] eqn:Hgate; cbn.
  - right. exists f. split; [done |]. split; [by rewrite Hgate |].
    exists ([NewRegistry; Notify; NewTicker Gate.poll_interval]
              ++ (Log <$> Gate.logs s)).
    destruct (g_Run w) as [tr [[e |] | h]]; cbn.
    all: eexists; split;
      [rewrite <- !app_assoc; reflexivity
      | repeat constructor; apply no_actor_logs].
  - left. repeat constructor. apply no_actor_logs.
  - left. repeat constructor. apply no_actor_logs.
  - left. repeat constructor. apply no_actor_logs.
Qed.

(** C7.  No actor is constructed, registered or started before the
    readiness gate has returned Ready: wherever the trace of [main] has an
    event of the reloader, of a [g.Add] or of [g.Run], the gate ended by
    sending on [done], and [main]'s receipt of it comes earlier in the
    trace. *)
Theorem actors_follow_readiness (fuel : nat) (w : world) (i : nat) (ev : event) :
  (main fuel w).1 !! i = Some ev →
  of_actor ev = true →
  (∃ f, Flags.Parse (args w) = inl f ∧
        Gate.outcome_of (Gate.gate (ready w) (Flags.readyURLStr f) fuel).1
          = Some Gate.Ready) ∧
  ∃ j, (j < i)%nat ∧ (main fuel w).1 !! j = Some GateDone.
Proof.
  intros Hi Hev.
  destruct (main_trace fuel w)
    as [Hnone | (f & Hparse & Hdone & pre & post & Htr & Hpre)].
  - rewrite Forall_lookup in Hnone. specialize (Hnone i ev Hi). cbn in Hnone.
    congruence.
  - split; [exists f; by rewrite Hdone |].
    rewrite Htr in Hi |- *. by apply (gated_after_done pre post Hpre i ev).
Qed.

Lemma actors_follow_readiness_witness :
  (main 3 Scenario.world_ready).1 !! 7%nat = Some (Add 0) ∧
  ∃ j, (j < 7)%nat ∧ (main 3 Scenario.world_ready).1 !! j = Some GateDone.
Proof.
  split; [reflexivity |].
  exact (proj2 (actors_follow_readiness 3 Scenario.world_ready 7 (Add 0)
                  eq_refl eq_refl)).
Defined.

(** C6.  A reload URL that does not parse, or a ready URL from which no
    request can be made, ends the process with exit code 1 before any
    actor exists; when the gate has let [main] through, a failure returned
    by the supervisor's run ends it with exit code 1, and a supervisor
    that returns no error lets [main] return, which is exit code 0. *)
Theorem exit_codes (fuel : nat) (w : world) (f : Flags.flags) :
  Flags.Parse (args w) = inl f →
  (∀ err, url_Parse w (Flags.reloadURLStr f) = Some err →
     exit_code (main fuel w) = Some 1 ∧
     Forall (λ ev, of_actor ev = false) (main fuel w).1) ∧
  (∀ err, http_NewRequest w (Flags.readyURLStr f) = Some err →
     exit_code (main fuel w) = Some 1 ∧
     Forall (λ ev, of_actor ev = false) (main fuel w).1) ∧
  (url_Parse w (Flags.reloadURLStr f) = None →
   http_NewRequest w (Flags.readyURLStr f) = None →
   (Gate.gate (ready w) (Flags.readyURLStr f) fuel).1 = Gate.Done →
   (∀ err, Group.result (Group.Run (actors w) (sched w)) = Some (Some err) →
      exit_code (main fuel w) = Some 1) ∧
   (Group.result (Group.Run (actors w) (sched w)) = Some None →
      exit_code (main fuel w) = Some 0)).
Proof.
  intros Hparse. unfold main, flag_Parse, wait_ready, g_Run. rewrite Hparse. cbn.
  split; [| split].
  - intros err ->. cbn. split; [done | by repeat constructor].
  - intros err Hreq. destruct (url_Parse w _); cbn.
    + split; [done | by repeat constructor].
    + rewrite Hreq. cbn. split; [done | by repeat constructor].
  - intros -> ->. cbn.
    destruct (Gate.gate (ready w) (Flags.readyURLStr f) fuel) as [x s]. cbn.
    intros ->. cbn. split.
    + intros err ->. done.
    + intros ->. done.
Qed.

Lemma exit_codes_witness :
  exit_code (main 3 Scenario.world_bad_reload_url) = Some 1 ∧
  exit_code (main 3 Scenario.world_bad_ready_url) = Some 1 ∧
  exit_code (main 3 Scenario.world_ready) = Some 1 ∧
  exit_code (main 3 Scenario.world_clean) = Some 0.
Proof.
  split; [| split; [| split]].
  - exact (proj1 (proj1 (exit_codes 3 Scenario.world_bad_reload_url _ eq_refl)
                    "missing ']' in host" eq_refl)).
  - exact (proj1 (proj1 (proj2 (exit_codes 3 Scenario.world_bad_ready_url _ eq_refl))
                    "missing ']' in host" eq_refl)).
  - exact (proj1 (proj2 (proj2 (exit_codes 3 Scenario.world_ready _ eq_refl))
                    eq_refl eq_refl eq_refl)
             "listen tcp :19091: bind: address already in use" eq_refl).
  - exact (proj2 (proj2 (proj2 (exit_codes 3 Scenario.world_clean _ eq_refl))
                    eq_refl eq_refl eq_refl)
             eq_refl).
Defined.

(** C5.  A termination signal taken while the gate is still polling ends
    the gate with Cancelled: the goroutine logs it and calls [os.Exit(0)],
    the process exits with code 0 and no actor was created.  The signal
    listener's run returns nil whether it was woken by a signal or by its
    interrupt function: a signal never becomes an error. *)
Theorem term_while_polling_exits_zero (fuel n : nat) (w : world) (f : Flags.flags) :
  Flags.Parse (args w) = inl f →
  url_Parse w (Flags.reloadURLStr f) = None →
  http_NewRequest w (Flags.readyURLStr f) = None →
  Gate.polls_not_ready (ready w) (Flags.readyURLStr f) 0 n →
  Gate.term_first (ready w) (Gate.tick_time (S n)) = true →
  (n < fuel)%nat →
  (∃ s, Gate.gate (ready w) (Flags.readyURLStr f) fuel = (Gate.Exit 0, s) ∧
        Gate.requests s = Gate.polls (Flags.readyURLStr f) 0 n ∧
        Gate.logs s = [LevelInfo "ensure ready-url is healthy";
                       LevelInfo "received SIGTERM, exiting gracefully..."]) ∧
  Gate.outcome_of (Gate.gate (ready w) (Flags.readyURLStr f) fuel).1 = Some Gate.Cancelled ∧
  exit_code (main fuel w) = Some 0 ∧
  Forall (λ ev, of_actor ev = false) (main fuel w).1 ∧
  (∀ wk, (Actors.signal_execute wk).2 = None) ∧
  (∀ a interrupted, actors w !! 1%nat = Some a → Group.run a interrupted = None).
Proof.
  intros Hparse Hurl Hreq Hn Hterm Hfuel.
  destruct (loop_term (ready w) (Flags.readyURLStr f) n 0 fuel
              (Gate.log (LevelInfo "ensure ready-url is healthy") Gate.init)
              Hn Hterm Hfuel) as (s & Hloop & Hrequests & Hlogs & _).
  fold (Gate.gate (ready w) (Flags.readyURLStr f) fuel) in Hloop.
  split; [exists s; by rewrite Hrequests, Hlogs |].
  split; [by rewrite Hloop |].
  unfold main, flag_Parse, wait_ready. rewrite Hparse. cbn.
  rewrite Hurl. cbn. rewrite Hreq. cbn. rewrite Hloop. cbn.
  split; [done |]. split; [repeat constructor; apply no_actor_logs |].
  split; [by intros [] |].
  intros a interrupted [= <-]. by destruct interrupted.
Qed.

Lemma term_while_polling_exits_zero_witness :
  (∃ s, Gate.gate Scenario.term_at_700ms "http://127.0.0.1:19090/-/ready" 2
          = (Gate.Exit 0, s) ∧
        Gate.requests s = [("http://127.0.0.1:19090/-/ready", 500000000)]) ∧
  exit_code (main 2 Scenario.world_term) = Some 0.
Proof.
  assert (H1 : Gate.polls_not_ready Scenario.term_at_700ms
                 "http://127.0.0.1:19090/-/ready" 0 1).
  { intros j Hj. assert (j = 1%nat) as -> by lia. done. }
  destruct (term_while_polling_exits_zero 2 1 Scenario.world_term _
              eq_refl eq_refl eq_refl H1 eq_refl ltac:(lia))
    as ((s & Hs & Hreq & _) & _ & Hexit & _).
  split; [| exact Hexit]. exists s. split; [exact Hs | exact Hreq].
Defined.

End MainFacts.

(** ** The scrape-endpoint failure check *)
Section E2EFacts.

Import E2E.

Lemma append_cons (x : Ascii.ascii) (a b : string) :
  String x a +:+ b = String x (a +:+ b).
Proof. reflexivity. Qed.

Lemma append_assoc (a b c : string) : (a +:+ b) +:+ c = a +:+ b +:+ c.
Proof.
  induction a as [| x a IH]; [done |]. by rewrite !append_cons, IH.
Qed.

Lemma append_nil_r (a : string) : a +:+ EmptyString = a.
Proof.
  induction a as [| x a IH]; [done |]. by rewrite append_cons, IH.
Qed.

Lemma HasPrefix_spec (s p : string) :
  HasPrefix s p = true ↔ ∃ post, s = p +:+ post.
Proof.
  revert s. induction p as [| a p IH]; intros s.
  { split; [intros _; by exists s | by destruct s]. }
  destruct s as [| b s]; cbn.
  { split; [done | by intros [post [=]]]. }
  rewrite andb_true_iff, bool_decide_eq_true, IH. split.
  - intros [-> [post ->]]. by exists post.
  - intros [post [= -> ->]]. split; [done | by exists post].
Qed.

Lemma Contains_nil (sub : string) :
  Contains EmptyString sub = HasPrefix EmptyString sub.
Proof. cbn [Contains]. apply orb_false_r. Qed.

Lemma Contains_cons (b : Ascii.ascii) (s sub : string) :
  Contains (String b s) sub = HasPrefix (String b s) sub || Contains s sub.
Proof. reflexivity. Qed.

(** [Contains] finds exactly the substrings. *)
Lemma Contains_spec (s sub : string) :
  Contains s sub = true ↔ occurs_in sub s.
Proof.
  unfold occurs_in. induction s as [| b s IH].
  - rewrite Contains_nil, HasPrefix_spec. split.
    + intros [post ->]. by exists EmptyString, post.
    + intros (pre & post & H). destruct pre; [by exists post | done].
  - rewrite Contains_cons, orb_true_iff, HasPrefix_spec, IH. split.
    + intros [[post H] | (pre & post & ->)].
      * by exists EmptyString, post.
      * by exists (String b pre), post.
    + intros (pre & post & H). destruct pre as [| a pre].
      * left. by exists post.
      * right. injection H as -> ->. by exists pre, post.
Qed.

Lemma occurs_in_trans (a b c : string) :
  occurs_in a b → occurs_in b c → occurs_in a c.
Proof.
  intros (p1 & q1 & ->) (p2 & q2 & ->).
  exists (p2 +:+ p1), (q1 +:+ q2). by rewrite !append_assoc.
Qed.

Lemma occurs_in_empty (s : string) : occurs_in EmptyString s.
Proof. by exists EmptyString, s. Qed.

Lemma targets_loop_None (errMsg : string) (i : nat) (targets : list SampleTarget) :
  targets_loop errMsg i targets = None ↔ Forall (target_failed errMsg) targets.
Proof.
  induction targets as [| t rest IH]; cbn.
  { split; [by constructor | done]. }
  rewrite Forall_cons, <- IH. unfold target_failed.
  case_bool_decide as Hup.
  { split; [done | by intros [[? _] _]]. }
  destruct (LastError t) as [e |].
  2:{ split; [done | by intros [[_ (e & [=] & _)] _]]. }
  destruct (Contains e errMsg) eqn:Hc; cbn.
  - apply Contains_spec in Hc. split; [| by intros [_ ?]].
    intros ->. split; [| done]. split; [done | by exists e].
  - split; [done |]. intros [[_ (e' & [= <-] & Hin%Contains_spec)] _]. congruence.
Qed.

Lemma groups_loop_None (errMsg : string) (groups : list SampleGroup) : ∀ i,
  groups_loop errMsg i groups = None ↔ Forall (group_failed errMsg) groups.
Proof.
  induction groups as [| g rest IH]; intros i; cbn.
  { split; [by constructor | done]. }
  rewrite Forall_cons, <- (IH (S i)). unfold group_failed.
  case_bool_decide as Hlen.
  { apply length_zero_iff_nil in Hlen. split; [done | by intros [[? _] _]]. }
  assert (Hne : SampleTargets g ≠ []) by (by intros H%length_zero_iff_nil).
  destruct (targets_loop errMsg i (SampleTargets g)) as [f |] eqn:Ht.
  - split; [done |]. intros [[_ Hall%(targets_loop_None errMsg i)] _]. congruence.
  - apply targets_loop_None in Ht. by intuition.
Qed.

Lemma check_nil_iff (st : ScrapeEndpointStatus) (errMsg : string) :
  isPodMonitoringScrapeEndpointFailure (Some st) errMsg = Returns None ↔
  endpoint_failed errMsg st.
Proof.
  unfold isPodMonitoringScrapeEndpointFailure, endpoint_failed.
  case_bool_decide as H1; [split; [done | by intros [? _]] |].
  case_bool_decide as H2; [split; [done | by intros (_ & ? & _)] |].
  case_bool_decide as H3.
  { apply length_zero_iff_nil in H3. split; [done | by intros (_ & _ & ? & _)]. }
  assert (Hne : SampleGroups st ≠ []) by (by intros H%length_zero_iff_nil).
  rewrite <- (groups_loop_None errMsg (SampleGroups st) O). split.
  - by intros [= ->].
  - by intros (_ & _ & _ & ->).
Qed.

(** X1.  The check returns nil exactly for a status that counts unhealthy
    targets, whose collectors fraction is not "0", and that has sample
    groups, each with sample targets, every one of which is not "up" and
    carries a last error in which the expected message occurs. *)
Theorem failure_check_nil_iff (st : ScrapeEndpointStatus) (errMsg : string) :
  isPodMonitoringScrapeEndpointFailure (Some st) errMsg = Returns None ↔
  UnhealthyTargets st ≠ 0 ∧
  CollectorsFraction st ≠ "0" ∧
  SampleGroups st ≠ [] ∧
  ∀ g, g ∈ SampleGroups st →
    SampleTargets g ≠ [] ∧
    ∀ t, t ∈ SampleTargets g →
      Health t ≠ "up" ∧
      ∃ e pre post, LastError t = Some e ∧ e = pre +:+ errMsg +:+ post.
Proof.
  rewrite check_nil_iff. unfold endpoint_failed, group_failed, target_failed, occurs_in.
  rewrite Forall_forall. do 3 (apply and_iff_compat_l).
  apply forall_proper; intros g. apply forall_proper; intros _.
  rewrite Forall_forall. apply and_iff_compat_l.
  apply forall_proper; intros t. apply forall_proper; intros _.
  apply and_iff_compat_l. split.
  - intros (e & He & pre & post & Heq). by exists e, pre, post.
  - intros (e & pre & post & He & Heq). exists e. split; [done |]. by exists pre, post.
Qed.

Lemma targets_loop_group (errMsg : string) (i : nat) (targets : list SampleTarget)
    (f : failure) :
  targets_loop errMsg i targets = Some f → group_of f = Some i.
Proof.
  induction targets as [| t rest IH]; cbn; [done |].
  case_bool_decide; [by intros [= <-] |].
  destruct (LastError t) as [e |]; [| by intros [= <-]].
  destruct (Contains e errMsg); cbn; [done | by intros [= <-]].
Qed.

(** The groups loop stops at the first group that did not fail as
    expected and names its index. *)
Lemma groups_loop_Some (errMsg : string) (groups : list SampleGroup) : ∀ i f,
  groups_loop errMsg i groups = Some f →
  ∃ k g, group_of f = Some (i + k)%nat ∧
         groups !! k = Some g ∧
         Forall (group_failed errMsg) (take k groups) ∧
         ¬ group_failed errMsg g.
Proof.
  induction groups as [| g rest IH]; intros i f; cbn; [done |].
  case_bool_decide as Hlen.
  { intros [= <-]. exists O, g. rewrite Nat.add_0_r. repeat split; [by constructor |].
    apply length_zero_iff_nil in Hlen. by intros [? _]. }
  destruct (targets_loop errMsg i (SampleTargets g)) as [f' |] eqn:Ht.
  - intros [= <-]. exists O, g. rewrite Nat.add_0_r.
    split; [by eapply targets_loop_group |]. repeat split; [by constructor |].
    intros [_ Hall%(targets_loop_None errMsg i)]. congruence.
  - intros Hrest. destruct (IH _ _ Hrest) as (k & g' & Hf & Hk & Hall & Hg').
    exists (S k), g'. split; [rewrite Hf; f_equal; lia |]. repeat split; [done | | done].
    cbn. constructor; [| done]. split.
    + by intros H%length_zero_iff_nil.
    + by apply (targets_loop_None errMsg i).
Qed.

(** X2.  An error that names a group names the first group, counting from
    0, that did not fail as expected: the groups before it all did. *)
Theorem failure_check_first_group
    (st : ScrapeEndpointStatus) (errMsg : string) (f : failure) (i : nat) :
  isPodMonitoringScrapeEndpointFailure (Some st) errMsg = Returns (Some f) →
  group_of f = Some i →
  ∃ g, SampleGroups st !! i = Some g ∧
       ¬ group_failed errMsg g ∧
       Forall (group_failed errMsg) (take i (SampleGroups st)).
Proof.
  unfold isPodMonitoringScrapeEndpointFailure.
  case_bool_decide; [by intros [= <-] |].
  case_bool_decide; [by intros [= <-] |].
  case_bool_decide; [by intros [= <-] |].
  intros [= Hloop] Hi.
  destruct (groups_loop_Some _ _ _ _ Hloop) as (k & g & Hf & Hk & Hall & Hg).
  rewrite Hi in Hf. injection Hf as ->. by exists g.
Qed.

Lemma endpoint_failed_weaken (st : ScrapeEndpointStatus) (errMsg errMsg' : string) :
  occurs_in errMsg' errMsg →
  endpoint_failed errMsg st → endpoint_failed errMsg' st.
Proof.
  intros Hin (H1 & H2 & H3 & Hall). repeat split; try done.
  eapply Forall_impl; [exact Hall |]. intros g [Hne Hts]. split; [done |].
  eapply Forall_impl; [exact Hts |]. intros t [Hup (e & He & Hocc)].
  split; [done |]. exists e. split; [done |]. by eapply occurs_in_trans.
Qed.

(** X3.  A status that passes the check for an expected message passes it
    for every message contained in that one, and so for the empty
    message. *)
Theorem failure_check_weaker_message
    (st : ScrapeEndpointStatus) (errMsg errMsg' : string) :
  Contains errMsg errMsg' = true →
  isPodMonitoringScrapeEndpointFailure (Some st) errMsg = Returns None →
  isPodMonitoringScrapeEndpointFailure (Some st) errMsg' = Returns None ∧
  isPodMonitoringScrapeEndpointFailure (Some st) EmptyString = Returns None.
Proof.
  intros Hc%Contains_spec Hnil%check_nil_iff. split; apply check_nil_iff.
  - by eapply endpoint_failed_weaken.
  - eapply endpoint_failed_weaken; [apply occurs_in_empty | done].
Qed.

Lemma failure_check_weaker_message_witness :
  isPodMonitoringScrapeEndpointFailure (Some Samples.tls_failure) "x509"
    = Returns None.
Proof.
  exact (proj1 (failure_check_weaker_message Samples.tls_failure
                  "x509: certificate signed by unknown authority" "x509"
                  eq_refl eq_refl)).
Defined.

Lemma failure_check_first_group_witness :
  ∃ g, SampleGroups Samples.one_target_up !! 1%nat = Some g ∧
       Forall (group_failed "x509") (take 1 (SampleGroups Samples.one_target_up)).
Proof.
  destruct (failure_check_first_group Samples.one_target_up "x509"
              (HealthyTarget "up" 1) 1 eq_refl eq_refl) as (g & Hg & _ & Hall).
  exists g. split; [exact Hg | exact Hall].
Defined.

(** X4.  Whether a status passes the check does not depend on the order
    of its sample groups. *)
Theorem failure_check_order_independent
    (st : ScrapeEndpointStatus) (groups : list SampleGroup) (errMsg : string) :
  SampleGroups st ≡ₚ groups →
  (isPodMonitoringScrapeEndpointFailure (Some st) errMsg = Returns None ↔
   isPodMonitoringScrapeEndpointFailure (Some (with_groups st groups)) errMsg
     = Returns None).
Proof.
  intros Hperm. rewrite !check_nil_iff. unfold endpoint_failed. cbn.
  split; intros (H1 & H2 & Hne & Hall); repeat split; try done.
  - intros ->. by apply Permutation_nil_r in Hperm.
  - by rewrite <- Hperm.
  - intros Hnil. rewrite Hnil in Hperm. by apply Permutation_nil_l in Hperm.
  - by rewrite Hperm.
Qed.

Lemma failure_check_order_independent_witness :
  isPodMonitoringScrapeEndpointFailure
    (Some (with_groups Samples.one_target_up
             (reverse (SampleGroups Samples.one_target_up)))) "x509"
  ≠ Returns None.
Proof.
  intros H.
  apply (failure_check_order_independent Samples.one_target_up
           (reverse (SampleGroups Samples.one_target_up)) "x509") in H.
  - discriminate H.
  - by rewrite reverse_Permutation.
Defined.

End E2EFacts.

(** ** More on the readiness gate *)
Section GateMore.

Import Gate.

Variable e : env.
Variable url : string.


(** The log lines of the whole loop. *)
Lemma loop_logs (fuel : nat) : ∀ (k : nat) (s : state),
  ∃ tail, logs (loop e url fuel k s).2 = logs s ++ tail ∧
    match (loop e url fuel k s).1 with
    | Done => tail = [LevelInfo "ready-url is healthy"]
    | Exit c =>
        (c = 0 ∧ tail = [LevelInfo "received SIGTERM, exiting gracefully..."]) ∨
        (c = 1 ∧ ∃ err, tail = [LevelError "polling ready-url" (Some err)])
    | Panic => tail = []
    | Polling => tail = []
    end.
Proof.
  induction fuel as [| fuel IH]; intros k s.
  { exists []. by rewrite app_nil_r. }
  cbn [loop]. destruct (term_first e _).
  { eexists. split; [reflexivity |]. by left. }
  destruct (endpoint e url _) as [[resp |] err].
  2:{ exists []. by rewrite app_nil_r. }
  destruct err as [err |].
  { eexists. split; [reflexivity |]. right. split; [done | by exists err]. }
  case_bool_decide.
  { eexists. split; reflexivity. }
  apply (IH (S k) (retry (StatusCode resp)
                     (defer_close (request url (tick_time (S k)) s)))).
Qed.

(** The loop after [n] not-ready polls when the next poll's [Do] returns
    an error along with a response: the error is logged and the process
    exits with code 1, whatever the response's status. *)
Lemma loop_error_response (n k fuel : nat) (s : state) (resp : Response) (msg : error) :
  polls_not_ready e url k n →
  term_first e (tick_time (S (k + n))) = false →
  endpoint e url (tick_time (S (k + n))) = (Some resp, Some msg) →
  (n < fuel)%nat →
  ∃ s', loop e url fuel k s = (Exit 1, s') ∧
        requests s' = requests s ++ polls url k (S n) ∧
        logs s' = logs s ++ [LevelError "polling ready-url" (Some msg)] ∧
        stopped s' = stopped s.
Proof.
  intros Hn Hterm Hdo Hfuel.
  destruct fuel as [| fuel]; [lia |].
  destruct (loop_not_ready e url n k (S (fuel - n)) s Hn)
    as (s1 & Hloop & Hreq & Hnr & Hlogs & Hdef & Hstop & Hnow).
  replace (n + S (fuel - n))%nat with (S fuel) in Hloop by lia.
  eexists. split.
  { rewrite Hloop. cbn [loop]. rewrite Hterm, Hdo. reflexivity. }
  cbn. by rewrite Hreq, Hlogs, Hstop, polls_snoc, <- app_assoc.
Qed.


End GateMore.

Section GateMoreClaims.

Import Gate.


(** X6.  Whatever the endpoint and the signal do, the gate logs one line
    when it starts and at most one more, when it ends: the ready line, the
    signal line with exit code 0, or the error with exit code 1.  A poll
    that finds the endpoint not ready logs nothing, nor does a panic. *)
Theorem gate_logs (e : env) (url : string) (fuel : nat) :
  ∃ tail,
    logs (gate e url fuel).2 = LevelInfo "ensure ready-url is healthy" :: tail ∧
    match (gate e url fuel).1 with
    | Done => tail = [LevelInfo "ready-url is healthy"]
    | Exit c =>
        (c = 0 ∧ tail = [LevelInfo "received SIGTERM, exiting gracefully..."]) ∨
        (c = 1 ∧ ∃ err, tail = [LevelError "polling ready-url" (Some err)])
    | Panic => tail = []
    | Polling => tail = []
    end.
Proof.
  unfold gate.
  destruct (loop_logs e url fuel O (log (LevelInfo "ensure ready-url is healthy") init))
    as (tail & Hlogs & Htail).
  exists tail. by rewrite Hlogs.
Qed.

(** X7.  An error of [Do] is looked at before the status: when a poll
    returns an error along with a response, the gate logs the error and
    exits with code 1 even if the response's status is 200, and the ticker
    is not stopped. *)
Theorem gate_error_beats_status
    (e : env) (url : string) (n fuel : nat) (resp : Response) (msg : error) :
  polls_not_ready e url 0 n →
  term_first e (tick_time (S n)) = false →
  endpoint e url (tick_time (S n)) = (Some resp, Some msg) →
  (n < fuel)%nat →
  ∃ s, gate e url fuel = (Exit 1, s) ∧
       outcome_of (Exit 1) = Some Failed ∧
       logs s = [LevelInfo "ensure ready-url is healthy";
                 LevelError "polling ready-url" (Some msg)] ∧
       length (requests s) = S n ∧
       stopped s = false.
Proof.
  intros Hn Hterm Hdo Hfuel. unfold gate.
  destruct (loop_error_response e url n 0 fuel
              (log (LevelInfo "ensure ready-url is healthy") init)
              resp msg Hn Hterm Hdo Hfuel)
    as (s & Hloop & Hreq & Hlogs & Hstop).
  exists s. rewrite Hloop, Hlogs, Hreq, Hstop. repeat split.
  cbn. unfold polls. by rewrite length_fmap, length_ticks.
Qed.

Lemma gate_error_beats_status_witness :
  ∃ s, gate Samples.redirect_error "http://127.0.0.1:19090/-/ready" 5 = (Exit 1, s) ∧
       logs s = [LevelInfo "ensure ready-url is healthy";
                 LevelError "polling ready-url" (Some "stopped after 10 redirects")].
Proof.
  assert (H1 : polls_not_ready Samples.redirect_error
                 "http://127.0.0.1:19090/-/ready" 0 1).
  { intros j Hj. assert (j = 1%nat) as -> by lia. done. }
  destruct (gate_error_beats_status Samples.redirect_error
              "http://127.0.0.1:19090/-/ready" 1 5 {| StatusCode := 200 |}
              "stopped after 10 redirects" H1 eq_refl eq_refl ltac:(lia))
    as (s & Hs & _ & Hlogs & _).
  exists s. split; [exact Hs | exact Hlogs].
Defined.





End GateMoreClaims.

(** ** More on [main] *)
Section MainMore.

Import Main.

(** X9.  An error on a readiness poll ends the process with a non-zero
    exit code before any actor exists, whether [Do] returned a response
    with the error (exit code 1) or none (a panic, exit code 2). *)
Theorem poll_error_exits_nonzero
    (fuel n : nat) (w : world) (f : Flags.flags)
    (resp : option Gate.Response) (msg : error) :
  Flags.Parse (args w) = inl f →
  url_Parse w (Flags.reloadURLStr f) = None →
  http_NewRequest w (Flags.readyURLStr f) = None →
  Gate.polls_not_ready (ready w) (Flags.readyURLStr f) 0 n →
  Gate.term_first (ready w) (Gate.tick_time (S n)) = false →
  Gate.endpoint (ready w) (Flags.readyURLStr f) (Gate.tick_time (S n))
    = (resp, Some msg) →
  (n < fuel)%nat →
  exit_code (main fuel w) = Some (if resp is Some _ then 1 else 2) ∧
  exit_code (main fuel w) ≠ Some 0 ∧
  Forall (λ ev, of_actor ev = false) (main fuel w).1.
Proof.
  intros Hparse Hurl Hreq Hn Hterm Hdo Hfuel.
  unfold main, flag_Parse, wait_ready. rewrite Hparse. cbn.
  rewrite Hurl. cbn. rewrite Hreq. cbn.
  destruct resp as [resp |].
  - destruct (loop_error_response (ready w) (Flags.readyURLStr f) n 0 fuel
                (Gate.log (LevelInfo "ensure ready-url is healthy") Gate.init)
                resp msg Hn Hterm Hdo Hfuel) as (s & Hloop & _).
    fold (Gate.gate (ready w) (Flags.readyURLStr f) fuel) in Hloop.
    rewrite Hloop. cbn. repeat split; [done |].
    repeat constructor. apply no_actor_logs.
  - destruct (loop_nil_response (ready w) (Flags.readyURLStr f) n 0 fuel
                (Gate.log (LevelInfo "ensure ready-url is healthy") Gate.init)
                (Some msg) Hn Hterm Hdo Hfuel) as (s & Hloop & _).
    fold (Gate.gate (ready w) (Flags.readyURLStr f) fuel) in Hloop.
    rewrite Hloop. cbn. repeat split; [done |].
    repeat constructor. apply no_actor_logs.
Qed.

Lemma poll_error_exits_nonzero_witness :
  exit_code (main 1 Samples.world_refused) = Some 2.
Proof.
  assert (H0 : Gate.polls_not_ready Scenario.connection_refused
                 "http://127.0.0.1:19090/-/ready" 0 0).
  { intros j Hj. lia. }
  exact (proj1 (poll_error_exits_nonzero 1 0 Samples.world_refused _ None
                  "connect: connection refused"
                  eq_refl eq_refl eq_refl H0 eq_refl eq_refl ltac:(lia))).
Defined.

(** X10.  As long as the endpoint answers with a status other than 200
    and no signal comes, the process neither exits nor creates an actor:
    [main] stays blocked on [done]. *)
Theorem not_ready_blocks_main (fuel : nat) (w : world) (f : Flags.flags) :
  Flags.Parse (args w) = inl f →
  url_Parse w (Flags.reloadURLStr f) = None →
  http_NewRequest w (Flags.readyURLStr f) = None →
  Gate.polls_not_ready (ready w) (Flags.readyURLStr f) 0 fuel →
  (main fuel w).2 = inr Blocked ∧
  exit_code (main fuel w) = None ∧
  Forall (λ ev, of_actor ev = false) (main fuel w).1 ∧
  GateDone ∉ (main fuel w).1.
Proof.
  intros Hparse Hurl Hreq Hn.
  destruct (loop_polling (ready w) (Flags.readyURLStr f) fuel 0
              (Gate.log (LevelInfo "ensure ready-url is healthy") Gate.init) Hn)
    as (s & Hloop & _).
  fold (Gate.gate (ready w) (Flags.readyURLStr f) fuel) in Hloop.
  unfold main, flag_Parse, wait_ready. rewrite Hparse. cbn.
  rewrite Hurl. cbn. rewrite Hreq. cbn. rewrite Hloop. cbn.
  repeat split; [repeat constructor; apply no_actor_logs |].
  rewrite !not_elem_of_cons. repeat split; try done.
  intros (l & [=] & _)%list_elem_of_fmap.
Qed.

Lemma not_ready_blocks_main_witness :
  exit_code (main 20 Samples.world_never_ready) = None.
Proof.
  assert (Hn : Gate.polls_not_ready Samples.never_ready
                 "http://127.0.0.1:19090/-/ready" 0 20).
  { intros j Hj. done. }
  exact (proj1 (proj2 (not_ready_blocks_main 20 Samples.world_never_ready _
                         eq_refl eq_refl eq_refl Hn))).
Defined.

(** X11.  After a successful setup the process exits with code 0 in
    exactly two cases: the gate took a signal, or the gate returned Ready
    and the supervisor's run returned no error. *)
Theorem exit_zero_iff (fuel : nat) (w : world) (f : Flags.flags) :
  Flags.Parse (args w) = inl f →
  url_Parse w (Flags.reloadURLStr f) = None →
  http_NewRequest w (Flags.readyURLStr f) = None →
  (exit_code (main fuel w) = Some 0 ↔
   (Gate.gate (ready w) (Flags.readyURLStr f) fuel).1 = Gate.Exit 0 ∨
   ((Gate.gate (ready w) (Flags.readyURLStr f) fuel).1 = Gate.Done ∧
    Group.result (Group.Run (actors w) (sched w)) = Some None)).
Proof.
  intros Hparse Hurl Hreq.
  unfold main, flag_Parse, wait_ready, g_Run. rewrite Hparse. cbn.
  rewrite Hurl. cbn. rewrite Hreq. cbn.
  destruct (Gate.gate (ready w) (Flags.readyURLStr f) fuel) as [[| c | |] s]; cbn.
  - destruct (Group.result _) as [[err |] |]; cbn.
    + split; [done | by intros [[=] | [_ [=]]]].
    + split; [by right | done].
    + split; [done | by intros [[=] | [_ [=]]]].
  - split; [intros [= ->]; by left | by intros [[= ->] | [[=] _]]].
  - split; [done | by intros [[=] | [[=] _]]].
  - split; [done | by intros [[=] | [[=] _]]].
Qed.

Lemma exit_zero_iff_witness :
  exit_code (main 2 Scenario.world_term) = Some 0 ∧
  exit_code (main 3 Scenario.world_clean) = Some 0 ∧
  exit_code (main 3 Scenario.world_ready) ≠ Some 0.
Proof.
  split; [| split].
  - apply (exit_zero_iff 2 Scenario.world_term _ eq_refl eq_refl eq_refl).
    left. reflexivity.
  - apply (exit_zero_iff 3 Scenario.world_clean _ eq_refl eq_refl eq_refl).
    right. split; reflexivity.
  - intros H.
    apply (exit_zero_iff 3 Scenario.world_ready _ eq_refl eq_refl eq_refl) in H.
    destruct H as [H | [_ H]]; discriminate H.
Defined.

Lemma set_flag_dirs (f f' : Flags.flags) (name value : string) :
  Flags.set_flag f name value = inl f' →
  Flags.watchedDirs f' =
    Flags.watchedDirs f ++ (if decide (name = "watched-dir") then [value] else []).
Proof.
  unfold Flags.set_flag.
  repeat case_decide; cbn; intros [= <-]; cbn; subst; by rewrite ?app_nil_r.
Qed.

Lemma parse_from_dirs_ok (args : list (string * string)) : ∀ f f',
  Flags.parse_from f args = inl f' →
  Flags.watchedDirs f' = Flags.watchedDirs f ++ Flags.dirs_of args.
Proof.
  induction args as [| [name value] args IH]; intros f f'.
  { intros [= <-]. by rewrite app_nil_r. }
  cbn [Flags.parse_from].
  destruct (Flags.set_flag f name value) as [f1 |] eqn:Hset; [| done].
  intros Hparse. rewrite (IH _ _ Hparse), (set_flag_dirs _ _ _ _ Hset), <- app_assoc.
  f_equal. unfold Flags.dirs_of. rewrite filter_cons. cbn [fst].
  by repeat case_decide.
Qed.

(** X12.  The reloader is only ever created from the parsed command line:
    its reload URL is the [reload-url] flag, which [url.Parse] accepted,
    its files are the [config-file] and [config-file-output] flags, its
    watched directories are the values of all [watched-dir] occurrences in
    command-line order, and its watch, retry and delay intervals are 10 s,
    5 s and 3 s. *)
Theorem reloader_options (fuel : nat) (w : world) (o : Options) :
  ReloaderNew o ∈ (main fuel w).1 →
  ∃ f, Flags.Parse (args w) = inl f ∧
       ReloadURL o = Flags.reloadURLStr f ∧
       url_Parse w (ReloadURL o) = None ∧
       CfgFile o = Flags.configFile f ∧
       CfgOutputFile o = Flags.configFileOutput f ∧
       WatchedDirs o = Flags.dirs_of (args w) ∧
       WatchInterval o = 10 * GoTime.Second ∧
       RetryInterval o = 5 * GoTime.Second ∧
       DelayInterval o = 3 * GoTime.Second.
Proof.
  unfold main, flag_Parse, wait_ready, g_Run.
  destruct (Flags.Parse (args w)) as [f | err] eqn:Hparse; cbn.
  2:{ by intros ?%elem_of_nil. }
  assert (Hlogs : ∀ ls : list log_line, ReloaderNew o ∉ Log <$> ls).
  { intros ls (l & [=] & _)%list_elem_of_fmap. }
  assert (Hactors : ∀ tr : list Group.event, ReloaderNew o ∉ Actor <$> tr).
  { intros tr (l & [=] & _)%list_elem_of_fmap. }
  destruct (url_Parse w _) as [err |] eqn:Hurl; cbn.
  { intros Hin. repeat (apply elem_of_cons in Hin as [[=] | Hin]).
    by apply elem_of_nil in Hin. }
  destruct (http_NewRequest w _) as [err |]; cbn.
  { intros Hin. repeat (apply elem_of_cons in Hin as [[=] | Hin]).
    by apply elem_of_nil in Hin. }
  destruct (Gate.gate (ready w) _ fuel) as [[| c | |] s]; cbn.
  2-4: intros Hin; repeat (apply elem_of_cons in Hin as [[=] | Hin]);
       by apply Hlogs in Hin.
  destruct (Group.result _) as [[err |] |]; cbn.
  all: intros Hin; do 3 (apply elem_of_cons in Hin as [[=] | Hin]).
  all: apply elem_of_app in Hin as [Hin | Hin];
    [apply elem_of_app in Hin as [Hin%Hlogs | Hin];
       [done | by apply list_elem_of_singleton in Hin] |].
  all: apply elem_of_cons in Hin as [Hin | Hin];
    [injection Hin as ->; exists f; cbn; rewrite Hurl; repeat split;
       unfold Flags.Parse in Hparse; by rewrite (parse_from_dirs_ok _ _ _ Hparse) |].
  all: exfalso; do 5 (apply elem_of_cons in Hin as [[=] | Hin]).
  - apply elem_of_app in Hin as [Hin%Hactors | Hin]; [done |].
    by apply list_elem_of_singleton in Hin.
  - rewrite app_nil_r in Hin. by apply Hactors in Hin.
  - by apply Hactors in Hin.
Qed.

Lemma reloader_options_witness :
  ∃ o, ReloaderNew o ∈ (main 3 Scenario.world_ready).1 ∧
       WatchedDirs o = ["/etc/rules"] ∧
       ReloadURL o = "http://127.0.0.1:19090/-/reload".
Proof.
  assert (Hin : ∃ o, (main 3 Scenario.world_ready).1 !! 6%nat = Some (ReloaderNew o)).
  { eexists. reflexivity. }
  destruct Hin as [o Ho]. exists o.
  assert (Hin : ReloaderNew o ∈ (main 3 Scenario.world_ready).1).
  { by eapply list_elem_of_lookup_2. }
  split; [exact Hin |].
  destruct (reloader_options 3 Scenario.world_ready o Hin)
    as (f & Hparse & Hurl & _ & _ & _ & Hdirs & _).
  split; [exact Hdirs |]. rewrite Hurl. by injection Hparse as <-.
Defined.

End MainMore.

(** ** More on [stringSlice] *)
Section FlagMore.

Import Flags.

Lemma Join_cons (e : string) (rest : list string) (sep : string) :
  rest ≠ [] → Join (e :: rest) sep = e +:+ sep +:+ Join rest sep.
Proof. by destruct rest. Qed.

(** X13.  [String] of two slices put together is the two [String]s with a
    ", " between them, when neither is empty. *)
Theorem stringSlice_String_app (ss1 ss2 : stringSlice) :
  ss1 ≠ [] → ss2 ≠ [] →
  stringSlice_String (ss1 ++ ss2)
    = stringSlice_String ss1 +:+ ", " +:+ stringSlice_String ss2.
Proof.
  unfold stringSlice_String. intros H1 H2.
  induction ss1 as [| e ss1 IH]; [done |].
  destruct ss1 as [| e' ss1].
  - cbn [app]. by rewrite Join_cons.
  - change ((e :: e' :: ss1) ++ ss2) with (e :: ((e' :: ss1) ++ ss2)).
    rewrite Join_cons by done. rewrite IH by done.
    rewrite (Join_cons e (e' :: ss1)) by done.
    by rewrite !append_assoc.
Qed.

Lemma stringSlice_String_app_witness :
  stringSlice_String (["/etc/rules"; "/etc/secrets"] ++ ["/etc/certs"])
    = "/etc/rules, /etc/secrets, /etc/certs".
Proof.
  rewrite (stringSlice_String_app ["/etc/rules"; "/etc/secrets"] ["/etc/certs"]
             ltac:(discriminate) ltac:(discriminate)).
  reflexivity.
Defined.

(** X14.  What [String] shows after a [Set]: the new value alone when the
    slice was empty, otherwise what it showed before, then ", " and the
    new value.  [Set] returns no error. *)
Theorem stringSlice_String_Set (ss : stringSlice) (value : string) :
  (stringSlice_Set ss value).2 = None ∧
  stringSlice_String (stringSlice_Set ss value).1 =
    match ss with
    | [] => value
    | _ :: _ => stringSlice_String ss +:+ ", " +:+ value
    end.
Proof.
  split; [done |]. cbn [stringSlice_Set fst]. destruct ss as [| e ss]; [done |].
  unfold stringSlice_String. induction ss as [| e' ss IH] in e |- *; [done |].
  change ((e :: e' :: ss) ++ [value]) with (e :: ((e' :: ss) ++ [value])).
  rewrite Join_cons by (by destruct ss).
  rewrite IH. rewrite (Join_cons e (e' :: ss)) by done.
  by rewrite !append_assoc.
Qed.

End FlagMore.
